(** * Marginal cumulative incidence example: synthetic data and theoretical curves

    Shallow embedding of [examples/plot_marginal_cumulative_incidence_estimation.py].

    Conventions of the embedding.
    - A NumPy float64 value is idealised as a real number ([R]); a Python
      [int] that enters float arithmetic is the real number it denotes.
      Rounding, infinities and NaN are therefore outside the model.
    - A one-dimensional array is a [list]; a two-dimensional array is the
      list of its rows.
    - A Python [dict] with string keys is a [gmap string R].
    - A Python exception is [None] in the option monad.
    - The random generator is an abstract state that the draws thread
      through, in the order the script performs them.
    - Of matplotlib only the shape of what [plt.subplots] returns is
      modelled, because the loop over the causes zips the axes with the
      hazard rows. What is drawn, and the fits of lifelines and of the
      gradient boosting estimator, return nothing the numerical code reads
      back and are not modelled. *)

From Stdlib Require Import Reals Lra Lia.
From stdpp Require Import gmap strings list fin_maps.

#[local] Open Scope R_scope.

(** ** NumPy array primitives *)

Module np.

(** [a.cumsum()]: [out[0] = a[0]], [out[i] = out[i-1] + a[i]]. *)
Fixpoint cumsum_from (acc : R) (a : list R) : list R :=
  match a with
  | [] => []
  | x :: a' => (acc + x) :: cumsum_from (acc + x) a'
  end.

Definition cumsum (a : list R) : list R :=
  match a with
  | [] => []
  | x :: a' => x :: cumsum_from x a'
  end.

(** [np.diff(a)]: [out[i] = a[i+1] - a[i]]. *)
Fixpoint diff (a : list R) : list R :=
  match a with
  | x :: (y :: _) as a' => (y - x) :: diff a'
  | _ => []
  end.

(** [np.linspace(start, stop, num)] with the default [endpoint=True]:
    [num] evenly spaced samples, [step = (stop - start) / (num - 1)]. *)
Definition linspace (start stop : R) (num : nat) : list R :=
  let step := (stop - start) / INR (num - 1) in
  map (fun i => start + INR i * step) (seq 0 num).

(** [np.stack(arrays, axis=0)]: raises [ValueError] when given no array
    or arrays of different shapes. *)
Definition stack (arrays : list (list R)) : option (list (list R)) :=
  match arrays with
  | [] => None
  | a0 :: rest =>
      if forallb (fun a => Nat.eqb (length a) (length a0)) rest
      then Some arrays else None
  end.

(** [m.sum(axis=0)] of a two-dimensional array: the rows are added
    elementwise, in order, starting from the first one. *)
Definition sum_axis0 (m : list (list R)) : list R :=
  match m with
  | [] => []
  | r0 :: rest => foldl (zip_with Rplus) r0 rest
  end.

(** [np.concatenate(cols, axis=1)] where every element of [cols] is an
    [n x 1] column (the [.reshape(-1, 1)] of a vector): the [n x K]
    matrix whose row [i] collects entry [i] of every column. Raises
    [ValueError] on an empty list or on columns of different heights. *)
Definition concatenate_columns (cols : list (list R)) : option (list (list R)) :=
  match cols with
  | [] => None
  | c0 :: rest =>
      if forallb (fun c => Nat.eqb (length c) (length c0)) rest
      then Some (map (fun i => map (fun c => nth i c 0) cols) (seq 0 (length c0)))
      else None
  end.

(** [np.argmin(row)]: index of the first occurrence of the minimum;
    raises [ValueError] on an empty sequence. *)
Fixpoint argmin_from (best_idx : nat) (best : R) (idx : nat) (row : list R) : nat :=
  match row with
  | [] => best_idx
  | x :: row' =>
      if Rlt_dec x best then argmin_from idx x (S idx) row'
      else argmin_from best_idx best (S idx) row'
  end.

Definition argmin (row : list R) : option nat :=
  match row with
  | [] => None
  | x :: row' => Some (argmin_from 0%nat x 1%nat row')
  end.

(** [np.minimum(a, b)], elementwise. *)
Definition minimum (a b : list R) : list R := zip_with Rmin a b.

(** [a < b], elementwise. *)
Definition less (a b : list R) : list bool :=
  zip_with (fun x y => if Rlt_dec x y then true else false) a b.

(** [np.where(cond, x, y)] with a scalar [x] broadcast against [y]. *)
Definition where_ {A} (cond : list bool) (x : A) (y : list A) : list A :=
  zip_with (fun (c : bool) yi => if c then x else yi) cond y.

(** [(a == x).mean()]: the fraction of entries equal to [x]. *)
Definition mean_eq (a : list Z) (x : Z) : R :=
  INR (length (filter (fun e => e = x) a)) / INR (length a).

End np.

(** ** The part of matplotlib the loop over the causes depends on *)

Module plt.

(** What [plt.subplots(ncols=n)] returns for its axes with one row and the
    default [squeeze=True]: a single Axes object when [n = 1], a
    one-dimensional array of [n] Axes when [n > 1]. *)
Inductive axes :=
| SingleAxes
| AxesArray (n : nat).

(** [plt.subplots(figsize=..., ncols=ncols, sharey=True)]: raises
    [ValueError] when the number of columns is not positive. *)
Definition subplots (ncols : nat) : option axes :=
  match ncols with
  | O => None
  | S O => Some SingleAxes
  | _ => Some (AxesArray ncols)
  end.

(** The second components of [zip(axes, rows)]: a single Axes object is
    not iterable ([TypeError]); an array of [n] Axes pairs with the first
    [n] rows. *)
Definition zip_rows {A} (ax : axes) (rows : list A) : option (list A) :=
  match ax with
  | SingleAxes => None
  | AxesArray n => Some (take n rows)
  end.

End plt.

(** ** Module-level constants *)

Definition n_samples : nat := 5000.
Definition base_scale : R := 1000.
Definition t_max : R := 3 * base_scale.

Abbreviation dict := (gmap string R).

Definition distributions : list dict :=
  [ {[ "event_id" := 1; "scale" := 10 * base_scale; "shape" := 0.5 ]};
    {[ "event_id" := 2; "scale" := 3 * base_scale; "shape" := 1 ]};
    {[ "event_id" := 3; "scale" := 2 * base_scale; "shape" := 5 ]} ].

(** ** The Weibull hazard *)

(** The scalar kernel of [weibull_hazard]: what [np.where(t == 0, 0.0, ...)]
    selects at one grid point. Both branches are evaluated by NumPy; the
    power at [t = 0] is discarded by the selection (its division warning is
    silenced by [np.errstate]). [Rpower] is the power of a positive base,
    which is what remains when [t > 0] and [scale > 0].

    Domain of the model: [t >= 0] and [scale > 0]. For a negative base
    NumPy's power is a signed value or NaN, which [Rpower] does not follow,
    and for [scale = 0] the Python division [shape / scale] raises
    [ZeroDivisionError], which a real-valued function cannot. Statements
    that depend on the value of a hazard are made for non-negative times
    and positive scales. *)
Definition weibull_hazard_at (t shape scale : R) : R :=
  if Req_dec_T t 0 then 0
  else (shape / scale) * Rpower (t / scale) (shape - 1).

(** [def weibull_hazard(t, shape=1.0, scale=1.0, **ignored_kwargs)] applied
    to an array [t]. *)
Definition weibull_hazard (t : list R) (shape scale : R) (ignored_kwargs : dict) : list R :=
  map (fun ti => weibull_hazard_at ti shape scale) t.

(** The value a keyword parameter with a default receives from [**kwargs]. *)
Definition kwarg (kwargs : dict) (name : string) (dflt : R) : R :=
  default dflt (kwargs !! name).

(** The call [weibull_hazard(t, **dist)]: [shape] and [scale] are bound from
    the dictionary or take their defaults, every other entry lands in
    [ignored_kwargs]; an entry named ["t"] collides with the positional
    argument and raises [TypeError]. This is the binding of the arguments;
    the [ZeroDivisionError] of the body for [scale = 0] lies outside the
    domain of [weibull_hazard_at], and statements that assert a returned
    curve assume a non-zero scale. *)
Definition call_weibull_hazard (t : list R) (dist : dict) : option (list R) :=
  match dist !! "t" with
  | Some _ => None
  | None =>
      Some (weibull_hazard t (kwarg dist "shape" 1) (kwarg dist "scale" 1)
              (delete "shape" (delete "scale" dist)))
  end.

(** ** Theoretical curves (the numerical part of [plot_cumulative_incidence_functions]) *)

Record curves := {
  all_hazards : list (list R);      (* row [i] is the hazard curve of cause [i] *)
  any_event_survival : list R;
  theoretical_cif : list (list R)   (* entry [i] belongs to [event_id = i + 1] *)
}.

(** The body of [plot_cumulative_incidence_functions] on a given fine
    grid: the axes, [dt], [all_hazards], [any_event_hazards],
    [any_event_survival] and, for each row [hazards_i] of [all_hazards]
    paired with its axes, [theoretical_cif]. *)
Definition theoretical_curves (fine_time_grid : list R) (distributions : list dict)
  : option curves :=
  axes ← plt.subplots (length distributions);
  dt ← head (np.diff fine_time_grid);
  hazards ← mapM (call_weibull_hazard fine_time_grid) distributions;
  all_hazards ← np.stack hazards;
  let any_event_hazards := np.sum_axis0 all_hazards in
  let any_event_survival :=
    map (fun c => exp (- (c * dt))) (np.cumsum any_event_hazards) in
  rows ← plt.zip_rows axes all_hazards;
  Some {| all_hazards := all_hazards;
          any_event_survival := any_event_survival;
          theoretical_cif :=
            map (fun hazards_i =>
                   map (fun c => c * dt)
                     (np.cumsum (zip_with Rmult hazards_i any_event_survival)))
              rows |}.

(** The numerical steps alone, without the axes: [dt], [all_hazards],
    [any_event_hazards], [any_event_survival], and the expression of
    [theoretical_cif] evaluated on every row of [all_hazards]. *)
Definition hazard_integrator (fine_time_grid : list R) (distributions : list dict)
  : option curves :=
  dt ← head (np.diff fine_time_grid);
  hazards ← mapM (call_weibull_hazard fine_time_grid) distributions;
  all_hazards ← np.stack hazards;
  let any_event_hazards := np.sum_axis0 all_hazards in
  let any_event_survival :=
    map (fun c => exp (- (c * dt))) (np.cumsum any_event_hazards) in
  Some {| all_hazards := all_hazards;
          any_event_survival := any_event_survival;
          theoretical_cif :=
            map (fun hazards_i =>
                   map (fun c => c * dt)
                     (np.cumsum (zip_with Rmult hazards_i any_event_survival)))
              all_hazards |}.

(** The [duration]/[event] table handed to the estimators. *)
Record DataFrame := { event : list Z; duration : list R }.

Definition fine_time_grid : list R := np.linspace 0 t_max (100 * 1000).

(** What the function computes: the censoring fraction shown in the title
    (read from the global [y_censored]) and the theoretical curves drawn on
    the fine grid. *)
Definition plot_cumulative_incidence_functions (y_censored : DataFrame)
    (distributions : list dict) : option (R * curves) :=
  cs ← theoretical_curves fine_time_grid distributions;
  let censoring_fraction := np.mean_eq (event y_censored) 0 in
  Some (censoring_fraction, cs).

(** ** Synthetic competing-risks data *)

(** [first_event_idx] and [y_uncensored] from the matrix of latent event
    times; [np.arange(n)] must enumerate the rows of the matrix. *)
Definition resolve_first_event (n : nat) (event_times : list (list R))
  : option DataFrame :=
  first_event_idx ← mapM np.argmin event_times;
  if decide (length event_times = n) then
    Some {| event := map (fun idx => (Z.of_nat idx + 1)%Z) first_event_idx;
            duration := zip_with (fun row idx => nth idx row 0)
                          event_times first_event_idx |}
  else None.

(** [y_censored] from the censoring times and [y_uncensored]. *)
Definition censor (censoring_times : list R) (y_uncensored : DataFrame) : DataFrame :=
  {| event := np.where_ (np.less censoring_times (duration y_uncensored)) 0%Z
                (event y_uncensored);
     duration := np.minimum censoring_times (duration y_uncensored) |}.

Record simulation {rng_state : Type} := {
  event_times : list (list R);
  y_uncensored : DataFrame;
  censoring_times : list R;
  y_censored : DataFrame;
  rng_final : rng_state
}.
Arguments simulation : clear implicits.

(** The generator interface: its state, the seeding function, and what one
    variate of each distribution returns together with the advanced
    state. The fields describe the generator on the arguments it accepts: a
    non-negative seed, a positive shape and a non-negative scale for a
    Weibull variate, [low <= high] for a uniform variate. On other arguments
    the libraries raise [ValueError]; statements about when the data
    generation succeeds assume accepted arguments. *)
Class Generator (rng_state : Type) := {
  default_rng : Z -> rng_state;
  weibull_variate : R -> R -> rng_state -> R * rng_state;
  uniform_variate : R -> R -> rng_state -> R * rng_state
}.

Section Script.

Context {rng_state : Type} {gen : Generator rng_state}.

(** [size] successive variates. *)
Fixpoint variates (variate : rng_state -> R * rng_state) (size : nat)
    (rng : rng_state) : list R * rng_state :=
  match size with
  | O => ([], rng)
  | S size' =>
      let (x, rng1) := variate rng in
      let (xs, rng2) := variates variate size' rng1 in
      (x :: xs, rng2)
  end.

(** [weibull_min.rvs(shape, scale=scale, size=size, random_state=rng)]. *)
Definition weibull_min_rvs (shape scale : R) (size : nat) (rng : rng_state) :=
  variates (weibull_variate shape scale) size rng.

(** [rng.uniform(low=low, high=high, size=size)]. *)
Definition rng_uniform (low high : R) (size : nat) (rng : rng_state) :=
  variates (uniform_variate low high) size rng.

(** The list comprehension over the cause specifications: one column of
    [n] variates per cause, drawn in list order. [dist["shape"]] and
    [dist["scale"]] raise [KeyError] when the key is missing. *)
Fixpoint sample_columns (n : nat) (dists : list dict) (rng : rng_state)
  : option (list (list R) * rng_state) :=
  match dists with
  | [] => Some ([], rng)
  | dist :: dists' =>
      shape ← dist !! "shape";
      scale ← dist !! "scale";
      let (col, rng1) := weibull_min_rvs shape scale n rng in
      '(cols, rng2) ← sample_columns n dists' rng1;
      Some (col :: cols, rng2)
  end.

(** The generator state from which the column of cause number [j] is
    drawn: the seeded state advanced by the columns of the causes before
    it. (A cause without shape or scale stops the sampler; the value taken
    for it here is immaterial.) *)
Fixpoint rng_before_column (n : nat) (dists : list dict) (rng : rng_state)
    (j : nat) : rng_state :=
  match j, dists with
  | S j', dist :: dists' =>
      rng_before_column n dists'
        (weibull_min_rvs (default 0 (dist !! "shape")) (default 0 (dist !! "scale"))
           n rng).2 j'
  | _, _ => rng
  end.

(** The data-generating part of the script, with the seed, the sample
    count, the cause specifications and the censoring upper bound as
    parameters (for arguments the generator accepts, see [Generator]). *)
Definition simulate (seed : Z) (n : nat) (dists : list dict) (high : R)
  : option (simulation rng_state) :=
  let rng := default_rng seed in
  '(cols, rng1) ← sample_columns n dists rng;
  event_times ← np.concatenate_columns cols;
  y_uncensored ← resolve_first_event n event_times;
  let (censoring_times, rng2) := rng_uniform 0 high n rng1 in
  Some {| event_times := event_times;
          y_uncensored := y_uncensored;
          censoring_times := censoring_times;
          y_censored := censor censoring_times y_uncensored;
          rng_final := rng2 |}.

(** A whole run: data generation, then the theoretical curves. *)
Definition run (seed : Z) (n : nat) (dists : list dict) (high : R)
  : option (simulation rng_state * (R * curves)) :=
  sim ← simulate seed n dists high;
  plot ← plot_cumulative_incidence_functions (y_censored sim) dists;
  Some (sim, plot).

(** The script as written. *)
Definition script := run 0 n_samples distributions (1.2 * t_max).

End Script.

(** ** A concrete generator for examples *)

(** A counter-based generator: the state counts the variates drawn so far;
    uniform variates alternate between the lower bound and the midpoint. *)
#[local] Instance counter_generator : Generator nat := {|
  default_rng := Z.to_nat;
  weibull_variate := fun shape scale st => (scale * INR (S st), S st);
  uniform_variate := fun low high st =>
    (low + (high - low) * (if Nat.even st then 0 else / 2), S st)
|}.

(** ** The quantities of the specification *)

(** Sum of a list of reals. *)
Definition Rsum (l : list R) : R := foldr Rplus 0 l.

Definition shape_of (dist : dict) : R := kwarg dist "shape" 1.
Definition scale_of (dist : dict) : R := kwarg dist "scale" 1.

(** Hazard of one cause at time [t]. *)
Definition cause_hazard (dist : dict) (t : R) : R :=
  weibull_hazard_at t (shape_of dist) (scale_of dist).

(** Sum over the causes of the per-cause hazard at time [t]. *)
Definition all_cause_hazard (dists : list dict) (t : R) : R :=
  Rsum (map (fun dist => cause_hazard dist t) dists).

(** [exp(-cumulative_sum(all_cause_hazard) * dt)] at grid point [k]. *)
Definition survival_at (grid : list R) (dists : list dict) (dt : R) (k : nat) : R :=
  exp (- (sum_f_R0 (fun j => all_cause_hazard dists (nth j grid 0)) k * dt)).

(** [cumulative_sum(cause_hazard * all_cause_survival) * dt] at grid point [k]. *)
Definition cif_at (grid : list R) (dists : list dict) (dt : R) (dist : dict) (k : nat) : R :=
  sum_f_R0 (fun j => cause_hazard dist (nth j grid 0) * survival_at grid dists dt j) k * dt.

(** A grid with uniform step [dt]: at least two points, consecutive points
    [dt] apart. *)
Definition uniform_step (grid : list R) (dt : R) : Prop :=
  (2 <= length grid)%nat /\
  forall i a b, grid !! i = Some a -> grid !! S i = Some b -> b - a = dt.

(** A TimeGrid of the data model: uniform, strictly increasing. *)
Definition TimeGrid (grid : list R) (dt : R) : Prop :=
  uniform_step grid dt /\ 0 < dt.

(** A CauseSpec of the data model: a dictionary with exactly the fields
    [event_id], [shape] and [scale]. *)
Definition CauseSpec (dist : dict) : Prop :=
  dom dist = ({[ "event_id"; "shape"; "scale" ]} : gset string).

(** Its shape and scale are positive. *)
Definition positive_spec (dist : dict) : Prop :=
  0 < shape_of dist /\ 0 < scale_of dist.

(** Largest entry of a list of non-negative reals. *)
Definition Rmax_list (l : list R) : R := foldr Rmax 0 l.

(** The tolerance of the competing-risks identity on a grid: the step times
    the largest all-cause hazard met on the grid. *)
Definition tolerance (grid : list R) (dists : list dict) (dt : R) : R :=
  dt * Rmax_list (map (all_cause_hazard dists) grid).

(** Sum over the causes of the incidence curves at grid point [k]. *)
Definition total_incidence (cs : curves) (k : nat) : R :=
  Rsum (map (fun cif => nth k cif 0) (theoretical_cif cs)).

Definition non_increasing (a : list R) : Prop :=
  forall i j x y, (i <= j)%nat -> a !! i = Some x -> a !! j = Some y -> y <= x.

Definition non_decreasing (a : list R) : Prop :=
  forall i j x y, (i <= j)%nat -> a !! i = Some x -> a !! j = Some y -> x <= y.

(** Row [i] of [all_hazards]; the arrays [any_event_survival] and
    [theoretical_cif] for a step [dt]. *)
Definition hazard_row (grid : list R) (dist : dict) : list R :=
  map (cause_hazard dist) grid.

Definition survival_curve (grid : list R) (dists : list dict) (dt : R) : list R :=
  map (fun c => exp (- (c * dt)))
    (np.cumsum (np.sum_axis0 (map (hazard_row grid) dists))).

Definition cif_curve (grid : list R) (dists : list dict) (dt : R) (dist : dict) : list R :=
  map (fun c => c * dt)
    (np.cumsum (zip_with Rmult (hazard_row grid dist) (survival_curve grid dists dt))).

(** Rows of a two-dimensional array with [n] columns. *)
Definition rows_of_length (n : nat) (m : list (list R)) : Prop :=
  Forall (fun r => length r = n) m.

(** ** The primitives on small arrays *)

(** Settles the comparisons of concrete reals met while evaluating. *)
Ltac decide_Rlt :=
  repeat match goal with
    | |- context [Rlt_dec ?a ?b] => destruct (Rlt_dec a b); try lra
    end.

Example cumsum_3 : np.cumsum [1; 2; 3] = [1; 1 + 2; 1 + 2 + 3].
Proof. reflexivity. Qed.

Example diff_3 : np.diff [0; 1; 3] = [1 - 0; 3 - 1].
Proof. reflexivity. Qed.

Example sum_axis0_3x2 :
  np.sum_axis0 [[1; 2]; [3; 4]; [5; 6]] = [1 + 3 + 5; 2 + 4 + 6].
Proof. reflexivity. Qed.

Example stack_empty : np.stack [] = None.
Proof. reflexivity. Qed.

Example concatenate_columns_3 :
  np.concatenate_columns [[1; 2]; [3; 4]; [5; 6]] = Some [[1; 3; 5]; [2; 4; 6]].
Proof. reflexivity. Qed.

Example argmin_first_occurrence : np.argmin [3; 1; 2; 1] = Some 1%nat.
Proof.
  cbn [np.argmin np.argmin_from]. decide_Rlt. reflexivity.
Qed.

Example subplots_shapes :
  plt.subplots 0 = None /\ plt.subplots 1 = Some plt.SingleAxes /\
  plt.subplots 3 = Some (plt.AxesArray 3).
Proof. repeat split. Qed.

Example call_with_defaults :
  call_weibull_hazard [0] {[ "event_id" := 4 ]} = Some [weibull_hazard_at 0 1 1].
Proof. reflexivity. Qed.

(** ** Array lemmas *)

Section ArrayLemmas.

Lemma length_cumsum_from acc a : length (np.cumsum_from acc a) = length a.
Proof. revert acc; induction a as [|x a IH]; intros acc; simpl; auto. Qed.

Lemma length_cumsum a : length (np.cumsum a) = length a.
Proof. destruct a; simpl; auto using length_cumsum_from. Qed.

Lemma sum_f_R0_shift (f : nat -> R) k :
  sum_f_R0 f (S k) = f 0%nat + sum_f_R0 (fun j => f (S j)) k.
Proof. rewrite (decomp_sum f (S k)) by lia. reflexivity. Qed.

Lemma nth_cumsum_from a : forall acc k, (k < length a)%nat ->
  nth k (np.cumsum_from acc a) 0 = acc + sum_f_R0 (fun j => nth j a 0) k.
Proof.
  induction a as [|x a IH]; intros acc k Hk; simpl in Hk; [lia|].
  destruct k as [|k].
  - reflexivity.
  - cbn [np.cumsum_from nth]. rewrite IH by lia.
    rewrite sum_f_R0_shift. cbn [nth]. lra.
Qed.

Lemma nth_cumsum a k : (k < length a)%nat ->
  nth k (np.cumsum a) 0 = sum_f_R0 (fun j => nth j a 0) k.
Proof.
  destruct a as [|x a]; simpl; [lia|]. intros Hk.
  destruct k as [|k]; [reflexivity|].
  rewrite nth_cumsum_from by lia. rewrite sum_f_R0_shift. reflexivity.
Qed.

Lemma nth_lookup_Some (a : list R) k x : a !! k = Some x -> nth k a 0 = x.
Proof. intros H. rewrite nth_lookup, H. reflexivity. Qed.

Lemma lookup_nth_lt (a : list R) k : (k < length a)%nat -> a !! k = Some (nth k a 0).
Proof.
  intros H. destruct (lookup_lt_is_Some_2 a k H) as [x Hx].
  rewrite Hx. f_equal. symmetry. by apply nth_lookup_Some.
Qed.

Lemma nth_map_lt (f : R -> R) a k : (k < length a)%nat ->
  nth k (map f a) 0 = f (nth k a 0).
Proof.
  intros H. apply nth_lookup_Some. rewrite list_lookup_fmap.
  rewrite (lookup_nth_lt a k H). reflexivity.
Qed.

Lemma nth_zip_with_lt (f : R -> R -> R) a b k :
  (k < length a)%nat -> (k < length b)%nat ->
  nth k (zip_with f a b) 0 = f (nth k a 0) (nth k b 0).
Proof.
  intros Ha Hb. apply nth_lookup_Some. rewrite lookup_zip_with.
  rewrite (lookup_nth_lt a k Ha), (lookup_nth_lt b k Hb). reflexivity.
Qed.

Lemma length_foldl_zip n r0 rest :
  length r0 = n -> rows_of_length n rest ->
  length (foldl (zip_with Rplus) r0 rest) = n.
Proof.
  intros H0 H. revert r0 H0. induction H as [|r rest Hr _ IH]; intros r0 H0; simpl; auto.
  apply IH. rewrite length_zip_with. lia.
Qed.

Lemma nth_foldl_zip n rest : rows_of_length n rest ->
  forall r0 k, length r0 = n -> (k < n)%nat ->
  nth k (foldl (zip_with Rplus) r0 rest) 0
  = nth k r0 0 + Rsum (map (fun r => nth k r 0) rest).
Proof.
  induction 1 as [|r rest Hr _ IH]; intros r0 k H0 Hk; simpl.
  - lra.
  - rewrite IH; [|rewrite length_zip_with; lia|lia].
    rewrite nth_zip_with_lt by lia. lra.
Qed.

Lemma length_sum_axis0 n m : m <> [] -> rows_of_length n m ->
  length (np.sum_axis0 m) = n.
Proof.
  destruct m as [|r0 rest]; [congruence|]. intros _ H.
  inversion H; subst. simpl. by apply length_foldl_zip.
Qed.

Lemma nth_sum_axis0 n m k : rows_of_length n m -> (k < n)%nat ->
  nth k (np.sum_axis0 m) 0 = Rsum (map (fun r => nth k r 0) m).
Proof.
  destruct m as [|r0 rest]; intros H Hk; [by destruct k|].
  inversion H; subst. simpl. by apply (nth_foldl_zip (length r0)).
Qed.

End ArrayLemmas.

(** ** The integrator, step by step *)

Section Integrator.

Variable grid : list R.

#[local] Abbreviation hazard_row := (hazard_row grid).
#[local] Abbreviation survival_curve := (survival_curve grid).
#[local] Abbreviation cif_curve := (cif_curve grid).

Lemma call_weibull_hazard_Some dist :
  dist !! "t" = None -> call_weibull_hazard grid dist = Some (hazard_row dist).
Proof. intros H. unfold call_weibull_hazard. rewrite H. reflexivity. Qed.

Lemma call_weibull_hazard_None dist :
  call_weibull_hazard grid dist = None <-> is_Some (dist !! "t").
Proof.
  unfold call_weibull_hazard. destruct (dist !! "t") eqn:E.
  - split; eauto.
  - split; [discriminate|]. intros [x Hx]. discriminate.
Qed.

Lemma mapM_call_weibull_hazard dists :
  Forall (fun dist => dist !! "t" = None) dists ->
  mapM (call_weibull_hazard grid) dists = Some (map hazard_row dists).
Proof.
  intros H. apply mapM_Some. induction H as [|d ds Hd _ IH]; simpl.
  - constructor.
  - constructor; auto using call_weibull_hazard_Some.
Qed.

Lemma hazard_rows_length dists :
  rows_of_length (length grid) (map hazard_row dists).
Proof.
  unfold rows_of_length. rewrite Forall_map. apply Forall_forall.
  intros d _. unfold hazard_row. apply length_map.
Qed.

Lemma stack_rows n m : m <> [] -> rows_of_length n m -> np.stack m = Some m.
Proof.
  destruct m as [|r0 rest]; [congruence|]. intros _ H.
  inversion H as [|? ? H0 Hrest]; subst. unfold np.stack.
  replace (forallb _ rest) with true; [reflexivity|].
  symmetry. apply forallb_forall. intros r Hr.
  apply Nat.eqb_eq. rewrite Forall_forall in Hrest.
  apply Hrest. by apply list_elem_of_In.
Qed.

Lemma head_diff a b rest : head (np.diff (a :: b :: rest)) = Some (b - a).
Proof. reflexivity. Qed.

Lemma head_diff_short (a : list R) : (length a < 2)%nat -> head (np.diff a) = None.
Proof. destruct a as [|x [|y a]]; simpl; auto; lia. Qed.

Lemma uniform_step_head_diff dt :
  uniform_step grid dt -> head (np.diff grid) = Some dt.
Proof.
  intros [Hlen Hstep]. destruct grid as [|a [|b rest]]; simpl in Hlen; try lia.
  rewrite head_diff. f_equal. by apply (Hstep 0%nat).
Qed.

(** When the function returns its curves, and which. *)
Lemma theoretical_curves_Some dists dt :
  head (np.diff grid) = Some dt -> (2 <= length dists)%nat ->
  Forall (fun dist => dist !! "t" = None) dists ->
  theoretical_curves grid dists
  = Some {| all_hazards := map hazard_row dists;
            any_event_survival := survival_curve dists dt;
            theoretical_cif := map (cif_curve dists dt) dists |}.
Proof.
  intros Hdt Hlen Hkw. unfold theoretical_curves.
  destruct dists as [|d0 [|d1 ds]] eqn:Hds; simpl in Hlen; try lia.
  rewrite <- Hds in *.
  replace (plt.subplots (length dists))
    with (Some (plt.AxesArray (length dists))) by (by rewrite Hds).
  cbn [mbind option_bind]. rewrite Hdt. cbn [mbind option_bind].
  rewrite (mapM_call_weibull_hazard _ Hkw). cbn [mbind option_bind].
  rewrite (stack_rows (length grid)); [| by rewrite Hds | apply hazard_rows_length].
  cbn [mbind option_bind plt.zip_rows].
  rewrite <- (length_map hazard_row dists), firstn_all.
  f_equal. f_equal.
  unfold cif_curve, survival_curve. by rewrite map_map.
Qed.

Lemma theoretical_curves_None dists :
  theoretical_curves grid dists = None ->
  (length dists < 2)%nat \/ (length grid < 2)%nat \/
  Exists (fun dist => is_Some (dist !! "t")) dists.
Proof.
  intros H.
  destruct (decide (length dists < 2)%nat) as [|Hlen]; [by left|right].
  destruct (head (np.diff grid)) as [dt|] eqn:Hdt.
  - right.
    destruct (decide (Forall (fun dist => dist !! "t" = None) dists)) as [Hkw|Hkw].
    + rewrite (theoretical_curves_Some dists dt) in H; auto; [discriminate|lia].
    + apply not_Forall_Exists in Hkw; [|intros x; apply _].
      eapply Exists_impl; [exact Hkw|]. intros d Hd. simpl in Hd.
      destruct (d !! "t"); [eauto|congruence].
  - left. destruct grid as [|a [|b rest]]; simpl; try lia. discriminate.
Qed.

(** Pointwise values of the computed curves. *)
Lemma length_survival_curve dists dt :
  dists <> [] -> length (survival_curve dists dt) = length grid.
Proof.
  intros Hne. unfold survival_curve. rewrite length_map, length_cumsum.
  apply length_sum_axis0; [by destruct dists | apply hazard_rows_length].
Qed.

Lemma nth_any_event_hazards dists k : (k < length grid)%nat ->
  nth k (np.sum_axis0 (map hazard_row dists)) 0
  = all_cause_hazard dists (nth k grid 0).
Proof.
  intros Hk. rewrite (nth_sum_axis0 (length grid)); auto using hazard_rows_length.
  unfold all_cause_hazard. rewrite map_map. f_equal.
  apply map_ext. intros d. unfold hazard_row. by rewrite nth_map_lt.
Qed.

Lemma nth_survival_curve dists dt k :
  dists <> [] -> (k < length grid)%nat ->
  nth k (survival_curve dists dt) 0 = survival_at grid dists dt k.
Proof.
  intros Hne Hk. unfold survival_curve, survival_at.
  assert (Hlen : length (np.sum_axis0 (map hazard_row dists)) = length grid).
  { apply length_sum_axis0; [by destruct dists | apply hazard_rows_length]. }
  rewrite nth_map_lt by (rewrite length_cumsum; lia).
  rewrite nth_cumsum by lia.
  f_equal. f_equal. f_equal. apply sum_eq. intros j Hj.
  apply nth_any_event_hazards. lia.
Qed.

Lemma length_cif_curve dists dt dist :
  dists <> [] -> length (cif_curve dists dt dist) = length grid.
Proof.
  intros Hne. unfold cif_curve.
  rewrite length_map, length_cumsum, length_zip_with.
  rewrite length_survival_curve by done. unfold hazard_row.
  rewrite length_map. lia.
Qed.

Lemma nth_cif_curve dists dt dist k :
  dists <> [] -> (k < length grid)%nat ->
  nth k (cif_curve dists dt dist) 0 = cif_at grid dists dt dist k.
Proof.
  intros Hne Hk. unfold cif_curve, cif_at.
  assert (Hs := length_survival_curve dists dt Hne).
  assert (Hr : length (hazard_row dist) = length grid)
    by (unfold hazard_row; apply length_map).
  rewrite nth_map_lt
    by (rewrite length_cumsum, length_zip_with; lia).
  rewrite nth_cumsum by (rewrite length_zip_with; lia).
  f_equal. apply sum_eq. intros j Hj.
  rewrite nth_zip_with_lt by lia.
  rewrite nth_survival_curve by (done || lia).
  f_equal. unfold hazard_row. rewrite nth_map_lt by lia. reflexivity.
Qed.

End Integrator.

(** ** The hazard integrator *)

Lemma CauseSpec_no_t dist : CauseSpec dist -> dist !! "t" = None.
Proof.
  intros Hdom. apply not_elem_of_dom. rewrite Hdom.
  rewrite !elem_of_union, !elem_of_singleton. intros [[?|?]|?]; discriminate.
Qed.

Lemma Forall_CauseSpec_no_t dists :
  Forall CauseSpec dists -> Forall (fun dist => dist !! "t" = None) dists.
Proof. intros H. eapply Forall_impl; [exact H | exact CauseSpec_no_t]. Qed.

(** The numerical steps return these curves for any non-empty list of
    causes that can be bound. *)
Lemma hazard_integrator_Some grid dists dt :
  head (np.diff grid) = Some dt -> dists <> [] ->
  Forall (fun dist => dist !! "t" = None) dists ->
  hazard_integrator grid dists
  = Some {| all_hazards := map (hazard_row grid) dists;
            any_event_survival := survival_curve grid dists dt;
            theoretical_cif := map (cif_curve grid dists dt) dists |}.
Proof.
  intros Hdt Hne Hkw. unfold hazard_integrator.
  rewrite Hdt. cbn [mbind option_bind].
  rewrite (mapM_call_weibull_hazard _ _ Hkw). cbn [mbind option_bind].
  rewrite (stack_rows (length grid));
    [| by destruct dists | apply hazard_rows_length].
  cbn [mbind option_bind]. f_equal. f_equal.
  unfold cif_curve, survival_curve. by rewrite map_map.
Qed.

(** With a single cause the function itself returns nothing, although its
    numerical steps go through: the lone Axes object that [plt.subplots]
    returns cannot be zipped with the hazard rows. *)
Lemma theoretical_curves_single_cause :
  let dist : dict := {[ "event_id" := 1; "scale" := 1; "shape" := 1 ]} in
  theoretical_curves [0; 1] [dist] = None /\
  is_Some (hazard_integrator [0; 1] [dist]).
Proof.
  intros dist. split.
  - unfold theoretical_curves. cbn [length plt.subplots mbind option_bind].
    rewrite head_diff. cbn [mbind option_bind].
    rewrite mapM_call_weibull_hazard.
    + cbn [mbind option_bind map]. unfold np.stack. cbn [forallb mbind option_bind].
      reflexivity.
    + repeat constructor.
  - rewrite (hazard_integrator_Some [0; 1] [dist] (1 - 0));
      [eauto|reflexivity|discriminate|repeat constructor].
Qed.

Lemma distributions_CauseSpec : Forall CauseSpec distributions.
Proof. unfold distributions, CauseSpec. repeat constructor; set_solver. Qed.

Lemma uniform_step_0_1_2 : uniform_step [0; 1; 2] 1.
Proof.
  split; [simpl; lia|].
  intros [|[|[|i]]] a b Ha Hb; simplify_eq/=; lra.
Qed.

Lemma kwarg_lookup (kwargs : dict) name dflt v :
  kwargs !! name = Some v -> kwarg kwargs name dflt = v.
Proof. intros H. unfold kwarg. by rewrite H. Qed.

Lemma distributions_positive : Forall positive_spec distributions.
Proof.
  unfold distributions, base_scale.
  repeat constructor; unfold shape_of, scale_of.
  - rewrite (kwarg_lookup _ _ _ 0.5) by reflexivity. lra.
  - rewrite (kwarg_lookup _ _ _ (10 * 1000)) by reflexivity. lra.
  - rewrite (kwarg_lookup _ _ _ 1) by reflexivity. lra.
  - rewrite (kwarg_lookup _ _ _ (3 * 1000)) by reflexivity. lra.
  - rewrite (kwarg_lookup _ _ _ 5) by reflexivity. lra.
  - rewrite (kwarg_lookup _ _ _ (2 * 1000)) by reflexivity. lra.
Qed.




(** ** The hazard function *)

(** C2: for positive shape and scale the hazard function returns a value
    at every grid point (it never raises): exactly 0 where [t = 0], and
    [(shape / scale) * (t / scale) ^ (shape - 1)] where [t > 0]. *)
Theorem weibull_hazard_values (t : list R) (shape scale : R) (ignored_kwargs : dict) :
  0 < shape -> 0 < scale ->
  length (weibull_hazard t shape scale ignored_kwargs) = length t /\
  forall i ti, t !! i = Some ti ->
    (ti = 0 -> weibull_hazard t shape scale ignored_kwargs !! i = Some 0) /\
    (0 < ti -> weibull_hazard t shape scale ignored_kwargs !! i
               = Some ((shape / scale) * Rpower (ti / scale) (shape - 1))).
Proof.
  intros _ _. unfold weibull_hazard. split; [apply length_map|].
  intros i ti Hi. rewrite list_lookup_fmap, Hi. cbn [fmap option_fmap option_map].
  unfold weibull_hazard_at. split; intros H.
  - destruct (Req_dec_T ti 0); [reflexivity|contradiction].
  - destruct (Req_dec_T ti 0); [lra|reflexivity].
Qed.

Lemma weibull_hazard_values_witness :
  weibull_hazard [0; 2] 0.5 2 ∅ !! 0%nat = Some 0 /\
  weibull_hazard [0; 2] 0.5 2 ∅ !! 1%nat
  = Some ((0.5 / 2) * Rpower (2 / 2) (0.5 - 1)).
Proof.
  destruct (weibull_hazard_values [0; 2] 0.5 2 ∅) as [_ H]; [lra|lra|].
  split.
  - apply (H 0%nat 0); reflexivity.
  - apply (H 1%nat 2); [reflexivity|lra].
Defined.

(** C10 (as stated) fails: an extra field named [t] is not ignored. It
    collides with the positional argument of [weibull_hazard(t, **dist)],
    so of two dictionaries with the same shape and scale one yields a hazard
    curve and the other none. *)
Lemma keyword_t_is_not_ignored :
  let d1 : dict := {[ "event_id" := 1; "scale" := 1; "shape" := 1 ]} in
  let d2 : dict := {[ "event_id" := 1; "scale" := 1; "shape" := 1; "t" := 0 ]} in
  shape_of d1 = shape_of d2 /\ scale_of d1 = scale_of d2 /\
  call_weibull_hazard [0; 1] d1 = Some (hazard_row [0; 1] d1) /\
  call_weibull_hazard [0; 1] d2 = None.
Proof.
  repeat split.
Qed.

Lemma theoretical_curves_ext grid dists dists' :
  Forall2 (fun d d' => call_weibull_hazard grid d = call_weibull_hazard grid d')
    dists dists' ->
  theoretical_curves grid dists = theoretical_curves grid dists'.
Proof.
  intros H. unfold theoretical_curves.
  rewrite (Forall2_length _ _ _ H).
  rewrite (Forall2_mapM_ext _ _ _ _ H). reflexivity.
Qed.

(** C10 (amended): the hazard function ignores every keyword argument
    other than [shape] and [scale] that the call can bind at all, that is
    every one not named [t]. Two CauseSpecs without a field [t] and with
    equal shape and scale, whatever their [event_id] and other extra fields,
    give the same hazard curve, and exchanging one for the other in the list
    of causes leaves the survival and incidence curves unchanged. *)
Theorem hazard_ignores_other_keywords (grid : list R) (d1 d2 : dict) :
  d1 !! "t" = None -> d2 !! "t" = None ->
  shape_of d1 = shape_of d2 -> scale_of d1 = scale_of d2 ->
  (forall kwargs, call_weibull_hazard grid d1
                  = Some (weibull_hazard grid (shape_of d1) (scale_of d1) kwargs)) /\
  call_weibull_hazard grid d1 = call_weibull_hazard grid d2 /\
  forall before after,
    theoretical_curves grid (before ++ d1 :: after)
    = theoretical_curves grid (before ++ d2 :: after).
Proof.
  intros H1 H2 Hshape Hscale.
  assert (Hcall : call_weibull_hazard grid d1 = call_weibull_hazard grid d2).
  { rewrite !call_weibull_hazard_Some by done.
    unfold hazard_row, cause_hazard. by rewrite Hshape, Hscale. }
  repeat split; [|exact Hcall|].
  - intros kwargs. by rewrite call_weibull_hazard_Some.
  - intros before after. apply theoretical_curves_ext.
    apply Forall2_app; [|constructor; [exact Hcall|]];
      (apply Forall_Forall2_diag, Forall_forall; reflexivity).
Qed.

Lemma hazard_ignores_other_keywords_witness :
  let d1 : dict := {[ "event_id" := 1; "scale" := 2; "shape" := 0.5 ]} in
  let d2 : dict := {[ "event_id" := 7; "scale" := 2; "shape" := 0.5; "label" := 3 ]} in
  call_weibull_hazard [0; 1; 2] d1 = call_weibull_hazard [0; 1; 2] d2 /\
  theoretical_curves [0; 1; 2] [d1; d1] = theoretical_curves [0; 1; 2] [d1; d2].
Proof.
  intros d1 d2.
  destruct (hazard_ignores_other_keywords [0; 1; 2] d1 d2) as (_ & Hcall & Hcurves);
    try reflexivity.
  split; [exact Hcall|]. exact (Hcurves [d1] []).
Defined.

(** ** Shape of the theoretical curves *)

Lemma theoretical_curves_Some_inv grid dists cs :
  theoretical_curves grid dists = Some cs ->
  (2 <= length dists)%nat /\
  Forall (fun dist => dist !! "t" = None) dists /\
  exists dt, head (np.diff grid) = Some dt /\
    cs = {| all_hazards := map (hazard_row grid) dists;
            any_event_survival := survival_curve grid dists dt;
            theoretical_cif := map (cif_curve grid dists dt) dists |}.
Proof.
  intros H.
  destruct (decide (2 <= length dists)%nat) as [Hlen|Hlen].
  - destruct (head (np.diff grid)) as [dt|] eqn:Hdt.
    + destruct (decide (Forall (fun dist => dist !! "t" = None) dists)) as [Hkw|Hkw].
      * rewrite (theoretical_curves_Some grid dists dt) in H by done.
        injection H as <-. eauto.
      * apply not_Forall_Exists in Hkw; [|intros x; apply _].
        assert (Hm : mapM (call_weibull_hazard grid) dists = None).
        { apply mapM_None. eapply Exists_impl; [exact Hkw|].
          intros d Hd. apply call_weibull_hazard_None. simpl in Hd.
          destruct (d !! "t"); [eauto|congruence]. }
        unfold theoretical_curves in H. rewrite Hdt, Hm in H.
        destruct (plt.subplots _); discriminate.
    + unfold theoretical_curves in H. rewrite Hdt in H.
      destruct (plt.subplots _); discriminate.
  - unfold theoretical_curves in H.
    destruct dists as [|d [|d' ds]]; simpl in Hlen; try lia; try discriminate.
    cbn [length plt.subplots mbind option_bind] in H.
    destruct (head (np.diff grid)); [|discriminate].
    cbn [mbind option_bind] in H.
    destruct (mapM (call_weibull_hazard grid) [d]); [|discriminate].
    cbn [mbind option_bind] in H.
    destruct (np.stack l); discriminate.
Qed.

Lemma weibull_hazard_at_nonneg t shape scale :
  0 < shape -> 0 < scale -> 0 <= weibull_hazard_at t shape scale.
Proof.
  intros Hshape Hscale. unfold weibull_hazard_at.
  destruct (Req_dec_T t 0); [lra|].
  apply Rmult_le_pos.
  - left. by apply Rdiv_lt_0_compat.
  - left. apply exp_pos.
Qed.

Lemma weibull_hazard_at_0 shape scale : weibull_hazard_at 0 shape scale = 0.
Proof. unfold weibull_hazard_at. destruct (Req_dec_T 0 0); [reflexivity|lra]. Qed.

Lemma Rsum_nonneg l : Forall (fun x => 0 <= x) l -> 0 <= Rsum l.
Proof. induction 1; simpl; lra. Qed.

Lemma Rsum_zero l : Forall (fun x => x = 0) l -> Rsum l = 0.
Proof. induction 1; simpl; lra. Qed.

Lemma all_cause_hazard_nonneg dists t :
  Forall positive_spec dists -> 0 <= all_cause_hazard dists t.
Proof.
  intros H. apply Rsum_nonneg. rewrite Forall_map.
  eapply Forall_impl; [exact H|]. intros d [Hs Hc].
  by apply weibull_hazard_at_nonneg.
Qed.

Lemma all_cause_hazard_0 dists : all_cause_hazard dists 0 = 0.
Proof.
  apply Rsum_zero. rewrite Forall_map. apply Forall_forall.
  intros d _. apply weibull_hazard_at_0.
Qed.

Lemma sum_f_R0_mono (f : nat -> R) i j :
  (forall k, 0 <= f k) -> (i <= j)%nat -> sum_f_R0 f i <= sum_f_R0 f j.
Proof.
  intros Hf Hij. induction Hij as [|j Hij IH]; [lra|].
  simpl. specialize (Hf (S j)). lra.
Qed.

Lemma survival_at_antitone grid dists dt i j :
  Forall positive_spec dists -> 0 < dt -> (i <= j)%nat ->
  survival_at grid dists dt j <= survival_at grid dists dt i.
Proof.
  intros Hpos Hdt Hij. unfold survival_at.
  assert (H : sum_f_R0 (fun k => all_cause_hazard dists (nth k grid 0)) i
              <= sum_f_R0 (fun k => all_cause_hazard dists (nth k grid 0)) j).
  { apply sum_f_R0_mono; [|exact Hij]. intros k. by apply all_cause_hazard_nonneg. }
  destruct H as [H|H].
  - left. apply exp_increasing. nra.
  - right. by rewrite H.
Qed.

Lemma survival_at_pos grid dists dt k : 0 < survival_at grid dists dt k.
Proof. apply exp_pos. Qed.

Lemma survival_at_0 grid dists dt :
  head grid = Some 0 -> survival_at grid dists dt 0 = 1.
Proof.
  intros H. unfold survival_at. destruct grid as [|t0 grid']; [discriminate|].
  injection H as ->. cbn [sum_f_R0 nth]. rewrite all_cause_hazard_0.
  replace (- (0 * dt)) with 0 by lra. apply exp_0.
Qed.

Lemma cif_at_monotone grid dists dt dist i j :
  positive_spec dist -> 0 < dt -> (i <= j)%nat ->
  cif_at grid dists dt dist i <= cif_at grid dists dt dist j.
Proof.
  intros [Hs Hc] Hdt Hij. unfold cif_at.
  apply Rmult_le_compat_r; [lra|].
  apply sum_f_R0_mono; [|exact Hij]. intros k.
  apply Rmult_le_pos.
  - by apply weibull_hazard_at_nonneg.
  - left. apply survival_at_pos.
Qed.

Lemma cif_at_0 grid dists dt dist :
  head grid = Some 0 -> cif_at grid dists dt dist 0 = 0.
Proof.
  intros H. unfold cif_at. destruct grid as [|t0 grid']; [discriminate|].
  injection H as ->. cbn [sum_f_R0 nth]. unfold cause_hazard.
  rewrite weibull_hazard_at_0. lra.
Qed.

Lemma survival_curve_lookup grid dists dt k x :
  dists <> [] -> survival_curve grid dists dt !! k = Some x ->
  (k < length grid)%nat /\ x = survival_at grid dists dt k.
Proof.
  intros Hne Hk. pose proof (lookup_lt_Some _ _ _ Hk) as Hlt.
  rewrite length_survival_curve in Hlt by done. split; [done|].
  rewrite <- (nth_survival_curve grid dists dt k) by done.
  symmetry. by apply nth_lookup_Some.
Qed.

Lemma cif_curve_lookup grid dists dt dist k x :
  dists <> [] -> cif_curve grid dists dt dist !! k = Some x ->
  (k < length grid)%nat /\ x = cif_at grid dists dt dist k.
Proof.
  intros Hne Hk. pose proof (lookup_lt_Some _ _ _ Hk) as Hlt.
  rewrite length_cif_curve in Hlt by done. split; [done|].
  rewrite <- (nth_cif_curve grid dists dt dist k) by done.
  symmetry. by apply nth_lookup_Some.
Qed.

Lemma survival_curve_non_increasing grid dists dt :
  dists <> [] -> Forall positive_spec dists -> 0 < dt ->
  non_increasing (survival_curve grid dists dt).
Proof.
  intros Hne Hpos Hdt i j x y Hij Hi Hj.
  apply survival_curve_lookup in Hi as [_ ->]; [|done].
  apply survival_curve_lookup in Hj as [_ ->]; [|done].
  by apply survival_at_antitone.
Qed.

Lemma survival_curve_head grid dists dt :
  dists <> [] -> head grid = Some 0 ->
  survival_curve grid dists dt !! 0%nat = Some 1.
Proof.
  intros Hne H0.
  assert (Hg : (0 < length grid)%nat) by (destruct grid; [discriminate|simpl; lia]).
  rewrite lookup_nth_lt by (rewrite length_survival_curve; done).
  rewrite nth_survival_curve by done. f_equal. by apply survival_at_0.
Qed.

Lemma cif_curve_non_decreasing grid dists dt dist :
  dists <> [] -> positive_spec dist -> 0 < dt ->
  non_decreasing (cif_curve grid dists dt dist).
Proof.
  intros Hne Hpos Hdt i j x y Hij Hi Hj.
  apply cif_curve_lookup in Hi as [_ ->]; [|done].
  apply cif_curve_lookup in Hj as [_ ->]; [|done].
  by apply cif_at_monotone.
Qed.

Lemma cif_curve_head grid dists dt dist :
  dists <> [] -> head grid = Some 0 ->
  cif_curve grid dists dt dist !! 0%nat = Some 0.
Proof.
  intros Hne H0.
  assert (Hg : (0 < length grid)%nat) by (destruct grid; [discriminate|simpl; lia]).
  rewrite lookup_nth_lt by (rewrite length_cif_curve; done).
  rewrite nth_cif_curve by done. f_equal. by apply cif_at_0.
Qed.

(** With CauseSpecs, the function fails only for want of a second cause. *)
Lemma theoretical_curves_None_CauseSpec grid dists dt :
  uniform_step grid dt -> Forall CauseSpec dists ->
  theoretical_curves grid dists = None -> (length dists < 2)%nat.
Proof.
  intros Hstep Hspecs E.
  apply theoretical_curves_None in E as [E|[E|E]]; [done| |].
  - destruct Hstep. lia.
  - exfalso. apply Exists_exists in E as (d & Hin & Hd').
    rewrite Forall_forall in Hspecs.
    rewrite (CauseSpec_no_t d (Hspecs d Hin)) in Hd'. by destruct Hd'.
Qed.

(** With CauseSpecs on a uniform grid, the curves returned are these. *)
Lemma theoretical_curves_Some_CauseSpec grid dists dt cs :
  uniform_step grid dt -> theoretical_curves grid dists = Some cs ->
  dists <> [] /\
  cs = {| all_hazards := map (hazard_row grid) dists;
          any_event_survival := survival_curve grid dists dt;
          theoretical_cif := map (cif_curve grid dists dt) dists |}.
Proof.
  intros Hstep E.
  pose proof (uniform_step_head_diff grid dt Hstep) as Hd.
  apply theoretical_curves_Some_inv in E as (Hlen & _ & dt' & Hd' & ->).
  assert (dt' = dt) as -> by congruence.
  split; [|reflexivity]. destruct dists; [simpl in Hlen; lia|discriminate].
Qed.

Lemma TimeGrid_0_1_2 : TimeGrid [0; 1; 2] 1.
Proof. split; [exact uniform_step_0_1_2 | lra]. Qed.

(** C5: for every list of CauseSpecs with positive shape and scale and
    every uniform-step grid starting at 0, the computed survival curve is
    non-increasing and starts at exactly 1, and every computed incidence
    curve is non-decreasing and starts at exactly 0. (The curves are
    computed unless there are fewer than two causes.) *)
Theorem curves_monotone (grid : list R) (dists : list dict) (dt : R) :
  TimeGrid grid dt -> head grid = Some 0 ->
  Forall CauseSpec dists -> Forall positive_spec dists ->
  match theoretical_curves grid dists with
  | Some cs =>
      non_increasing (any_event_survival cs) /\
      any_event_survival cs !! 0%nat = Some 1 /\
      Forall (fun cif => non_decreasing cif /\ cif !! 0%nat = Some 0)
        (theoretical_cif cs)
  | None => (length dists < 2)%nat
  end.
Proof.
  intros [Hstep Hdt] H0 Hspecs Hpos.
  destruct (theoretical_curves grid dists) as [cs|] eqn:E;
    [|by apply (theoretical_curves_None_CauseSpec grid dists dt)].
  apply (theoretical_curves_Some_CauseSpec grid dists dt) in E as [Hne ->]; [|done].
  cbn [any_event_survival theoretical_cif]. repeat split.
  - by apply survival_curve_non_increasing.
  - by apply survival_curve_head.
  - rewrite Forall_map. eapply Forall_impl; [exact Hpos|].
    intros dist Hdist. split.
    + by apply cif_curve_non_decreasing.
    + by apply cif_curve_head.
Qed.

Lemma curves_monotone_witness :
  exists cs, theoretical_curves [0; 1; 2] distributions = Some cs /\
    non_increasing (any_event_survival cs) /\
    any_event_survival cs !! 0%nat = Some 1 /\
    Forall (fun cif => non_decreasing cif /\ cif !! 0%nat = Some 0)
      (theoretical_cif cs).
Proof.
  pose proof (curves_monotone [0; 1; 2] distributions 1 TimeGrid_0_1_2 eq_refl
                distributions_CauseSpec distributions_positive) as H.
  destruct (theoretical_curves [0; 1; 2] distributions) as [cs|].
  - exists cs. split; [reflexivity|exact H].
  - simpl in H. lia.
Defined.

(** ** The competing-risks identity *)

Lemma exp_step_bounds a : 0 <= a ->
  0 < exp (- a) /\ 1 - a <= exp (- a) /\ exp (- a) * (1 + a) <= 1.
Proof.
  intros Ha. pose proof (exp_pos (- a)) as Hpos.
  pose proof (exp_ineq1_le (- a)) as H1.
  pose proof (exp_ineq1_le a) as H2.
  assert (Hinv : exp (- a) * exp a = 1).
  { rewrite <- exp_plus. replace (- a + a) with 0 by lra. apply exp_0. }
  repeat split; [lra|lra|nra].
Qed.

(** One rectangle of the integration: the mass [s - s'] leaving the
    survival function exceeds the mass [a * s'] credited to the incidence
    functions by at most [a * (s - s')]. *)
Lemma rectangle_defect s a : 0 < s -> 0 <= a ->
  let s' := s * exp (- a) in
  0 <= s - s' - a * s' <= a * (s - s').
Proof.
  intros Hs Ha s'. subst s'.
  destruct (exp_step_bounds a Ha) as (He & H1 & H2).
  split; nra.
Qed.

Lemma defect_scaled s0 s1 a m I : 0 <= s0 - s1 - a * s1 <= a * (s0 - s1) ->
  s1 <= s0 -> 0 <= a <= m ->
  0 <= 1 - s0 - I <= m * (1 - s0) ->
  0 <= 1 - s1 - (I + a * s1) <= m * (1 - s1).
Proof.
  intros H1 H2 H3 H4.
  assert (0 <= (m - a) * (s0 - s1)) by (apply Rmult_le_pos; lra).
  split; nra.
Qed.

Lemma riemann_identity_bound (H : nat -> R) (dt M : R) (k : nat) :
  0 < dt -> (forall j, 0 <= H j) -> (forall j, (j <= k)%nat -> H j <= M) ->
  let S := fun j => exp (- (sum_f_R0 H j * dt)) in
  0 <= 1 - S k - sum_f_R0 (fun j => H j * S j) k * dt <= M * dt * (1 - S k).
Proof.
  intros Hdt Hpos HM S.
  assert (Hstep : forall j, (j <= k)%nat -> 0 <= H j * dt <= M * dt).
  { intros j Hj. specialize (Hpos j). specialize (HM j Hj). split; nra. }
  clear HM. induction k as [|k IH].
  - cbn [sum_f_R0].
    destruct (Hstep 0%nat (le_n _)) as [Ha HaM].
    pose proof (rectangle_defect 1 (H 0%nat * dt) Rlt_0_1 Ha) as Hr.
    cbv zeta in Hr. rewrite Rmult_1_l in Hr.
    assert (HS : S 0%nat = exp (- (H 0%nat * dt))) by reflexivity.
    rewrite <- HS in Hr.
    assert (He : S 0%nat <= 1).
    { rewrite HS. destruct (exp_step_bounds _ Ha) as (? & ? & ?). nra. }
    pose proof (defect_scaled 1 (S 0%nat) (H 0%nat * dt) (M * dt) 0 Hr He
                  (conj Ha HaM)) as Hd.
    replace (H 0%nat * S 0%nat * dt) with (0 + H 0%nat * dt * S 0%nat) by ring.
    apply Hd. lra.
  - assert (IH' : 0 <= 1 - S k - sum_f_R0 (fun j => H j * S j) k * dt
                  <= M * dt * (1 - S k)) by (apply IH; intros j Hj; apply Hstep; lia).
    clear IH. cbn [sum_f_R0].
    destruct (Hstep (Datatypes.S k) (le_n _)) as [Ha HaM].
    assert (HS : S (Datatypes.S k) = S k * exp (- (H (Datatypes.S k) * dt))).
    { subst S. cbn [sum_f_R0]. rewrite <- exp_plus. f_equal. lra. }
    assert (HSk : 0 < S k) by apply exp_pos.
    pose proof (rectangle_defect (S k) (H (Datatypes.S k) * dt) HSk Ha) as Hr.
    cbv zeta in Hr. rewrite <- HS in Hr.
    assert (Hs01 : S (Datatypes.S k) <= S k).
    { rewrite HS. destruct (exp_step_bounds _ Ha) as (? & ? & ?).
      assert (exp (- (H (Datatypes.S k) * dt)) <= 1) by nra. nra. }
    pose proof (defect_scaled _ _ _ (M * dt) _ Hr Hs01 (conj Ha HaM) IH') as Hd.
    replace ((sum_f_R0 (fun j => H j * S j) k + H (Datatypes.S k) * S (Datatypes.S k)) * dt)
      with (sum_f_R0 (fun j => H j * S j) k * dt
            + H (Datatypes.S k) * dt * S (Datatypes.S k)) by ring.
    exact Hd.
Qed.

Lemma sum_f_R0_zero k : sum_f_R0 (fun _ => 0) k = 0.
Proof. induction k; simpl; lra. Qed.

Lemma Rsum_map_sum_f_R0 {A} (f : A -> nat -> R) (l : list A) k :
  Rsum (map (fun d => sum_f_R0 (f d) k) l)
  = sum_f_R0 (fun j => Rsum (map (fun d => f d j) l)) k.
Proof.
  induction l as [|d l IH]; simpl.
  - by rewrite sum_f_R0_zero.
  - rewrite IH. symmetry. apply plus_sum.
Qed.

Lemma Rsum_map_scal {A} (f : A -> R) (l : list A) c :
  Rsum (map (fun d => f d * c) l) = Rsum (map f l) * c.
Proof. induction l as [|d l IH]; simpl; [lra|]. rewrite IH. lra. Qed.

Lemma Rmax_list_nonneg l : 0 <= Rmax_list l.
Proof.
  induction l as [|x l IH]; simpl; [lra|].
  eapply Rle_trans; [exact IH|apply Rmax_r].
Qed.

Lemma Rmax_list_ub l k : (k < length l)%nat -> nth k l 0 <= Rmax_list l.
Proof.
  revert k. induction l as [|x l IH]; intros k Hk; simpl in Hk; [lia|].
  destruct k as [|k]; simpl.
  - apply Rmax_l.
  - eapply Rle_trans; [apply IH; lia|apply Rmax_r].
Qed.

(** Sum over the causes of the incidence at grid point [k]. *)
Lemma total_cif_at grid dists dt k :
  Rsum (map (fun dist => cif_at grid dists dt dist k) dists)
  = sum_f_R0 (fun j => all_cause_hazard dists (nth j grid 0)
                       * survival_at grid dists dt j) k * dt.
Proof.
  unfold cif_at.
  rewrite (Rsum_map_scal
             (fun dist => sum_f_R0 (fun j => cause_hazard dist (nth j grid 0)
                                             * survival_at grid dists dt j) k)).
  f_equal.
  rewrite (Rsum_map_sum_f_R0
             (fun dist j => cause_hazard dist (nth j grid 0)
                            * survival_at grid dists dt j)).
  apply sum_eq. intros j _. unfold all_cause_hazard.
  rewrite (Rsum_map_scal (fun dist => cause_hazard dist (nth j grid 0))).
  reflexivity.
Qed.

Lemma identity_at grid dists dt k :
  Forall positive_spec dists -> 0 < dt -> (k < length grid)%nat ->
  let total := Rsum (map (fun dist => cif_at grid dists dt dist k) dists)
               + survival_at grid dists dt k in
  total <= 1 /\ Rabs (total - 1) <= tolerance grid dists dt.
Proof.
  intros Hpos Hdt Hk total. subst total. rewrite total_cif_at.
  set (M := Rmax_list (map (all_cause_hazard dists) grid)).
  pose proof (riemann_identity_bound
                (fun j => all_cause_hazard dists (nth j grid 0)) dt M k Hdt) as Hb.
  cbv zeta beta in Hb. fold (survival_at grid dists dt k) in Hb.
  assert (HM : 0 <= M) by apply Rmax_list_nonneg.
  assert (Hs : 0 < survival_at grid dists dt k) by apply survival_at_pos.
  destruct Hb as [Hlo Hhi].
  - intros j. by apply all_cause_hazard_nonneg.
  - intros j Hj. subst M.
    rewrite <- (nth_map_lt (all_cause_hazard dists) grid j) by lia.
    apply Rmax_list_ub. rewrite length_map. lia.
  - unfold survival_at in *. unfold tolerance. fold M.
    set (I := sum_f_R0 _ k * dt) in *.
    set (s := exp _) in *.
    split; [lra|]. rewrite Rabs_left1 by lra.
    assert (0 <= M * dt) by (apply Rmult_le_pos; lra).
    assert (0 <= M * dt * s) by (apply Rmult_le_pos; lra).
    lra.
Qed.

Lemma curves_identity grid dists dt k :
  dists <> [] -> Forall positive_spec dists -> 0 < dt -> (k < length grid)%nat ->
  let cs := {| all_hazards := map (hazard_row grid) dists;
               any_event_survival := survival_curve grid dists dt;
               theoretical_cif := map (cif_curve grid dists dt) dists |} in
  exists s, any_event_survival cs !! k = Some s /\
    total_incidence cs k + s <= 1 /\
    Rabs (total_incidence cs k + s - 1) <= tolerance grid dists dt.
Proof.
  intros Hne Hpos Hdt Hk cs. subst cs.
  exists (survival_at grid dists dt k). cbn [any_event_survival]. split.
  { rewrite lookup_nth_lt by (rewrite length_survival_curve; done).
    by rewrite nth_survival_curve. }
  unfold total_incidence. cbn [theoretical_cif]. rewrite map_map.
  rewrite (map_ext _ (fun dist => cif_at grid dists dt dist k))
    by (intros dist; by apply nth_cif_curve).
  by apply identity_at.
Qed.

(** C6: at every grid point of the fine grid, the sum over the causes of
    the incidence curves plus the all-cause survival curve equals 1 up to
    the tolerance [dt * (largest all-cause hazard on the grid)], and never
    exceeds 1. (The curves are computed unless there are fewer than two
    causes.) *)
Theorem competing_risks_identity (grid : list R) (dists : list dict) (dt : R) :
  TimeGrid grid dt -> head grid = Some 0 ->
  Forall CauseSpec dists -> Forall positive_spec dists ->
  match theoretical_curves grid dists with
  | Some cs =>
      forall k t, grid !! k = Some t ->
        exists s, any_event_survival cs !! k = Some s /\
          total_incidence cs k + s <= 1 /\
          Rabs (total_incidence cs k + s - 1) <= tolerance grid dists dt
  | None => (length dists < 2)%nat
  end.
Proof.
  intros [Hstep Hdt] _ Hspecs Hpos.
  destruct (theoretical_curves grid dists) as [cs|] eqn:E;
    [|by apply (theoretical_curves_None_CauseSpec grid dists dt)].
  apply (theoretical_curves_Some_CauseSpec grid dists dt) in E as [Hne ->]; [|done].
  intros k t Hk. apply lookup_lt_Some in Hk. by apply curves_identity.
Qed.

Lemma competing_risks_identity_witness :
  exists cs s, theoretical_curves [0; 1; 2] distributions = Some cs /\
    any_event_survival cs !! 2%nat = Some s /\
    Rabs (total_incidence cs 2 + s - 1) <= tolerance [0; 1; 2] distributions 1.
Proof.
  pose proof (competing_risks_identity [0; 1; 2] distributions 1 TimeGrid_0_1_2
                eq_refl distributions_CauseSpec distributions_positive) as H.
  destruct (theoretical_curves [0; 1; 2] distributions) as [cs|].
  - destruct (H 2%nat 2 eq_refl) as (s & Hs & _ & Hid).
    exists cs, s. split; [reflexivity|]. split; [exact Hs|exact Hid].
  - simpl in H. lia.
Defined.

(** ** Resolution of the first event *)

Lemma argmin_from_spec row : forall best_idx best idx, (best_idx < idx)%nat ->
  let r := np.argmin_from best_idx best idx row in
  (r = best_idx /\ Forall (fun x => best <= x) row) \/
  ((idx <= r)%nat /\ exists m,
      row !! (r - idx)%nat = Some m /\ m < best /\
      Forall (fun x => m <= x) row /\
      forall j x, (j < r - idx)%nat -> row !! j = Some x -> m < x).
Proof.
  induction row as [|x row IH]; intros bi b i Hlt; cbn [np.argmin_from].
  - left. split; [reflexivity|constructor].
  - destruct (Rlt_dec x b) as [Hx|Hx].
    + right. destruct (IH i x (S i) (Nat.lt_succ_diag_r i)) as [[Hr Hall]|(Hr & m & Hm & Hmx & Hall & Hfirst)].
      * rewrite Hr. split; [lia|]. exists x. rewrite Nat.sub_diag.
        repeat split; [done| |intros j y Hj; lia].
        constructor; [lra|exact Hall].
      * split; [lia|]. exists m.
        replace (np.argmin_from i x (S i) row - i)%nat
          with (S (np.argmin_from i x (S i) row - S i)) by lia.
        repeat split; [exact Hm|lra| |].
        -- constructor; [lra|exact Hall].
        -- intros [|j] y Hj Hy; simplify_eq/=; [lra|].
           apply (Hfirst j y); [lia|exact Hy].
    + assert (Hbi : (bi < S i)%nat) by lia.
      destruct (IH bi b (S i) Hbi) as [[Hr Hall]|(Hr & m & Hm & Hmx & Hall & Hfirst)].
      * left. split; [exact Hr|]. constructor; [lra|exact Hall].
      * right. split; [lia|]. exists m.
        replace (np.argmin_from bi b (S i) row - i)%nat
          with (S (np.argmin_from bi b (S i) row - S i)) by lia.
        repeat split; [exact Hm|exact Hmx| |].
        -- constructor; [lra|exact Hall].
        -- intros [|j] y Hj Hy; simplify_eq/=; [lra|].
           apply (Hfirst j y); [lia|exact Hy].
Qed.

(** [np.argmin] returns the first position of the smallest entry. *)
Lemma argmin_spec row idx : np.argmin row = Some idx ->
  exists m, row !! idx = Some m /\
    Forall (fun x => m <= x) row /\
    forall j x, (j < idx)%nat -> row !! j = Some x -> m < x.
Proof.
  destruct row as [|x row]; [discriminate|]. cbn [np.argmin]. intros [= <-].
  destruct (argmin_from_spec row 0%nat x 1%nat Nat.lt_0_1)
    as [[Hr Hall]|(Hr & m & Hm & Hmx & Hall & Hfirst)].
  - rewrite Hr. exists x. repeat split; [|intros j y Hj; lia].
    constructor; [lra|exact Hall].
  - exists m.
    replace (np.argmin_from 0 x 1 row)
      with (S (np.argmin_from 0 x 1 row - 1)) at 1 by lia.
    repeat split; [exact Hm| |].
    + constructor; [lra|exact Hall].
    + intros [|j] y Hj Hy; simplify_eq/=; [lra|].
      apply (Hfirst j y); [lia|exact Hy].
Qed.

Lemma argmin_None row : np.argmin row = None <-> row = [].
Proof. destruct row; simpl; split; congruence. Qed.

Lemma resolve_first_event_Some n event_times df :
  resolve_first_event n event_times = Some df ->
  length event_times = n /\
  exists first_event_idx,
    Forall2 (fun row idx => np.argmin row = Some idx) event_times first_event_idx /\
    event df = map (fun idx => (Z.of_nat idx + 1)%Z) first_event_idx /\
    duration df = zip_with (fun row idx => nth idx row 0) event_times first_event_idx.
Proof.
  unfold resolve_first_event. intros H.
  destruct (mapM np.argmin event_times) as [idxs|] eqn:Hm; [|discriminate].
  cbn [mbind option_bind] in H. case_decide; [|discriminate].
  injection H as <-. split; [done|]. exists idxs.
  apply mapM_Some in Hm. done.
Qed.

Lemma resolve_first_event_None n event_times :
  resolve_first_event n event_times = None ->
  length event_times <> n \/ [] ∈ event_times.
Proof.
  unfold resolve_first_event. intros H.
  destruct (mapM np.argmin event_times) as [idxs|] eqn:Hm.
  - cbn [mbind option_bind] in H. case_decide; [discriminate|by left].
  - right. apply mapM_None in Hm. apply Exists_exists in Hm as (row & Hin & Hrow).
    apply argmin_None in Hrow. by subst.
Qed.

Lemma resolve_first_event_lengths n event_times df :
  resolve_first_event n event_times = Some df ->
  length (event df) = n /\ length (duration df) = n.
Proof.
  intros H. apply resolve_first_event_Some in H as (Hn & idxs & HF & -> & ->).
  apply Forall2_length in HF.
  rewrite length_map, length_zip_with. lia.
Qed.

(** C4: for every subject, that is every row of the matrix of latent event
    times, the resolved cause is the argmin index of the row plus one,
    columns being in the order of the list of causes, and the resolved event
    time is the entry at that index, which is the minimum of the row (first
    occurrence). The resolution fails only if the matrix has no column or
    not the announced number of rows. *)
Theorem first_event_is_row_minimum (n : nat) (event_times : list (list R)) :
  match resolve_first_event n event_times with
  | Some df =>
      forall i row, event_times !! i = Some row ->
        exists idx m,
          np.argmin row = Some idx /\
          event df !! i = Some (Z.of_nat idx + 1)%Z /\
          duration df !! i = Some m /\
          row !! idx = Some m /\
          (forall x, x ∈ row -> m <= x) /\
          (forall j x, (j < idx)%nat -> row !! j = Some x -> m < x)
  | None => length event_times <> n \/ [] ∈ event_times
  end.
Proof.
  destruct (resolve_first_event n event_times) as [df|] eqn:E;
    [|by apply resolve_first_event_None].
  apply resolve_first_event_Some in E as (_ & idxs & HF & Hev & Hdur).
  intros i row Hrow.
  destruct (Forall2_lookup_l _ _ _ _ _ HF Hrow) as (idx & Hidx & Harg).
  destruct (argmin_spec row idx Harg) as (m & Hm & Hall & Hfirst).
  exists idx, m. repeat split; auto.
  - rewrite Hev, list_lookup_fmap, Hidx. reflexivity.
  - rewrite Hdur, lookup_zip_with, Hrow. cbn [mbind option_bind].
    rewrite Hidx. cbn [fmap option_fmap option_map mbind option_bind].
    f_equal. by apply nth_lookup_Some.
  - intros x Hx. rewrite Forall_forall in Hall. by apply Hall.
Qed.

(** ** Censoring *)

Lemma resolved_event_positive n event_times df i e :
  resolve_first_event n event_times = Some df ->
  event df !! i = Some e -> (1 <= e)%Z.
Proof.
  intros H He. apply resolve_first_event_Some in H as (_ & idxs & _ & Hev & _).
  rewrite Hev, list_lookup_fmap in He.
  destruct (idxs !! i) as [idx|]; simplify_eq/=. lia.
Qed.

Lemma censor_lookup censoring_times df i c t e :
  censoring_times !! i = Some c ->
  duration df !! i = Some t -> event df !! i = Some e ->
  duration (censor censoring_times df) !! i = Some (Rmin c t) /\
  event (censor censoring_times df) !! i
  = Some (if Rlt_dec c t then 0%Z else e).
Proof.
  intros Hc Ht He. unfold censor. cbn [duration event]. split.
  - unfold np.minimum. rewrite lookup_zip_with, Hc. cbn [mbind option_bind].
    by rewrite Ht.
  - unfold np.where_, np.less. rewrite !lookup_zip_with, Hc.
    cbn [mbind option_bind]. rewrite Ht. cbn [fmap option_fmap option_map mbind option_bind].
    rewrite He. cbn [fmap option_fmap option_map]. by destruct (Rlt_dec c t).
Qed.

(** C3: for every subject the censored record has
    [duration = min(true event time, censoring time)], and its [event] is 0
    exactly when the censoring time is strictly smaller than the true event
    time; otherwise (ties included) it is the resolved cause id. *)
Theorem censoring_invariant (n : nat) (event_times : list (list R))
    (censoring_times : list R) (y_uncensored : DataFrame) :
  resolve_first_event n event_times = Some y_uncensored ->
  forall i c t e,
    censoring_times !! i = Some c ->
    duration y_uncensored !! i = Some t ->
    event y_uncensored !! i = Some e ->
    duration (censor censoring_times y_uncensored) !! i = Some (Rmin t c) /\
    exists ev, event (censor censoring_times y_uncensored) !! i = Some ev /\
      (ev = 0%Z <-> c < t) /\
      (~ c < t -> ev = e).
Proof.
  intros Hres i c t e Hc Ht He.
  pose proof (resolved_event_positive _ _ _ _ _ Hres He) as Hpos.
  destruct (censor_lookup censoring_times y_uncensored i c t e Hc Ht He) as [Hd Hev].
  split; [by rewrite Rmin_comm|].
  eexists. split; [exact Hev|].
  destruct (Rlt_dec c t) as [Hlt|Hge]; split; try done.
  split; [lia|done].
Qed.

Lemma resolve_first_event_example :
  resolve_first_event 2 [[3; 1; 2]; [4; 5; 6]]
  = Some {| event := [2%Z; 1%Z]; duration := [1; 4] |}.
Proof.
  unfold resolve_first_event. cbn. decide_Rlt. reflexivity.
Qed.

Lemma first_event_is_row_minimum_witness :
  exists idx m,
    np.argmin [4; 5; 6] = Some idx /\
    event {| event := [2%Z; 1%Z]; duration := [1; 4] |} !! 1%nat
    = Some (Z.of_nat idx + 1)%Z /\
    [4; 5; 6] !! idx = Some m /\ m <= 5.
Proof.
  pose proof (first_event_is_row_minimum 2 [[3; 1; 2]; [4; 5; 6]]) as H.
  rewrite resolve_first_event_example in H.
  destruct (H 1%nat [4; 5; 6] eq_refl) as (idx & m & Harg & Hev & _ & Hm & Hmin & _).
  exists idx, m. repeat split; [exact Harg|exact Hev|exact Hm|].
  apply Hmin. apply list_elem_of_In. simpl. auto.
Defined.

Lemma censoring_invariant_witness :
  let y_uncensored := {| event := [2%Z; 1%Z]; duration := [1; 4] |} in
  duration (censor [3; 2] y_uncensored) !! 1%nat = Some (Rmin 4 2) /\
  exists ev, event (censor [3; 2] y_uncensored) !! 1%nat = Some ev /\
    (ev = 0%Z <-> 2 < 4) /\ (~ 2 < 4 -> ev = 1%Z).
Proof.
  intros y_uncensored.
  apply (censoring_invariant 2 [[3; 1; 2]; [4; 5; 6]] [3; 2] y_uncensored);
    [exact resolve_first_event_example|reflexivity|reflexivity|reflexivity].
Defined.

(** ** The script: draws, independence from censoring, censoring bound *)

Section ScriptProperties.

Context {rng_state : Type} {gen : Generator rng_state}.

Lemma length_variates (variate : rng_state -> R * rng_state) size rng :
  length (variates variate size rng).1 = size.
Proof.
  revert rng. induction size as [|size IH]; intros rng; cbn [variates]; [done|].
  destruct (variate rng) as [x rng1]. specialize (IH rng1).
  destruct (variates variate size rng1) as [xs rng2]. simpl in *. by rewrite IH.
Qed.

Lemma Forall_variates (P : R -> Prop) (variate : rng_state -> R * rng_state) size rng :
  (forall rng', P (variate rng').1) ->
  Forall P (variates variate size rng).1.
Proof.
  intros HP. revert rng. induction size as [|size IH]; intros rng; cbn [variates].
  - constructor.
  - pose proof (HP rng) as Hx. destruct (variate rng) as [x rng1]. specialize (IH rng1).
    destruct (variates variate size rng1) as [xs rng2]. simpl in *. by constructor.
Qed.

Lemma simulate_Some seed n dists high sim :
  simulate seed n dists high = Some sim ->
  exists cols rng1,
    sample_columns n dists (default_rng seed) = Some (cols, rng1) /\
    np.concatenate_columns cols = Some (event_times sim) /\
    resolve_first_event n (event_times sim) = Some (y_uncensored sim) /\
    censoring_times sim = (rng_uniform 0 high n rng1).1 /\
    rng_final sim = (rng_uniform 0 high n rng1).2 /\
    y_censored sim = censor (censoring_times sim) (y_uncensored sim).
Proof.
  unfold simulate. intros H.
  destruct (sample_columns n dists (default_rng seed))
    as [[cols rng1]|] eqn:Hs; [|discriminate].
  cbn [mbind option_bind] in H.
  destruct (np.concatenate_columns cols) as [et|] eqn:Hc; [|discriminate].
  cbn [mbind option_bind] in H.
  destruct (resolve_first_event n et) as [yu|] eqn:Hr; [|discriminate].
  cbn [mbind option_bind] in H.
  destruct (rng_uniform 0 high n rng1) as [c rng2] eqn:Hu.
  injection H as <-. exists cols, rng1. cbn. by rewrite Hu.
Qed.

Lemma simulate_high_irrelevant {A} seed n dists high1 high2 (k : option A) :
  (simulate seed n dists high1 ≫= fun _ => k)
  = (simulate seed n dists high2 ≫= fun _ => k).
Proof.
  unfold simulate.
  destruct (sample_columns n dists (default_rng seed))
    as [[cols rng1]|]; [|reflexivity].
  cbn [mbind option_bind].
  destruct (np.concatenate_columns cols) as [et|]; [|reflexivity].
  cbn [mbind option_bind].
  destruct (resolve_first_event n et) as [yu|]; [|reflexivity].
  cbn [mbind option_bind].
  destruct (rng_uniform 0 high1 n rng1), (rng_uniform 0 high2 n rng1).
  reflexivity.
Qed.

Lemma run_curves seed n dists high :
  (fun r => r.2.2) <$> run seed n dists high
  = (simulate seed n dists high ≫= fun _ => theoretical_curves fine_time_grid dists).
Proof.
  unfold run, plot_cumulative_incidence_functions.
  destruct (simulate seed n dists high) as [sim|]; [|reflexivity].
  cbn [mbind option_bind].
  destruct (theoretical_curves fine_time_grid dists); reflexivity.
Qed.

(** C7: two runs that differ only in the upper bound of the censoring
    distribution produce the same theoretical hazard, survival and
    incidence curves; these are the curves determined by the fine grid and
    the CauseSpecs alone. *)
Theorem curves_independent_of_censoring (seed : Z) (n : nat) (dists : list dict)
    (high1 high2 : R) :
  (fun r => r.2.2) <$> run seed n dists high1
  = (fun r => r.2.2) <$> run seed n dists high2
  /\
  forall sim censoring_fraction cs,
    run seed n dists high1 = Some (sim, (censoring_fraction, cs)) ->
    theoretical_curves fine_time_grid dists = Some cs.
Proof.
  split.
  - rewrite !run_curves. apply simulate_high_irrelevant.
  - intros sim fraction cs Hrun. unfold run in Hrun.
    destruct (simulate seed n dists high1) as [sim'|]; [|discriminate].
    cbn [mbind option_bind] in Hrun.
    unfold plot_cumulative_incidence_functions in Hrun.
    destruct (theoretical_curves fine_time_grid dists) as [cs'|]; [|discriminate].
    cbn [mbind option_bind] in Hrun. congruence.
Qed.

(** C9: if every uniform variate lies in the half-open interval
    [[low, high)], then every subject of the censored dataset has an
    observed duration strictly below the censoring upper bound
    [1.2 * t_max], whatever the latent event times. *)
Theorem censored_duration_bounded (seed : Z) (n : nat) (dists : list dict)
    (sim : simulation rng_state) :
  (forall low high rng, low < high ->
     low <= (uniform_variate low high rng).1 < high) ->
  simulate seed n dists (1.2 * t_max) = Some sim ->
  length (duration (y_censored sim)) = n /\
  Forall (fun d => d < 1.2 * t_max) (duration (y_censored sim)).
Proof.
  intros Hrange Hsim.
  apply simulate_Some in Hsim as (cols & rng1 & _ & _ & Hres & Hc & _ & Hy).
  rewrite Hy. unfold censor. cbn [duration]. unfold np.minimum.
  assert (Hlen : length (censoring_times sim) = n)
    by (rewrite Hc; apply length_variates).
  apply resolve_first_event_lengths in Hres as [_ Hd].
  split; [rewrite length_zip_with; lia|].
  assert (Hhigh : 0 < 1.2 * t_max) by (unfold t_max, base_scale; lra).
  assert (Hall : Forall (fun c => c < 1.2 * t_max) (censoring_times sim)).
  { rewrite Hc. apply Forall_variates. intros rng'. by apply Hrange. }
  clear -Hall. revert Hall. generalize (duration (y_uncensored sim)).
  induction (censoring_times sim) as [|c cs IH]; intros ds Hall; [constructor|].
  destruct ds as [|d ds]; [constructor|]. inversion Hall; subst.
  cbn [zip_with]. constructor; [|by apply IH].
  eapply Rle_lt_trans; [apply Rmin_l|done].
Qed.

End ScriptProperties.

(** ** The script runs *)

Section ScriptRuns.

Context {rng_state : Type} {gen : Generator rng_state}.

Lemma sample_columns_Some n dists rng :
  Forall (fun dist : dict => is_Some (dist !! "shape") /\ is_Some (dist !! "scale")) dists ->
  exists cols rng1,
    sample_columns n dists rng = Some (cols, rng1) /\
    length cols = length dists /\
    Forall (fun col => length col = n) cols.
Proof.
  intros Hkeys. revert rng.
  induction Hkeys as [|dist dists [[shape Hshape] [scale Hscale]] _ IH]; intros rng.
  - exists [], rng. repeat split. constructor.
  - cbn [sample_columns]. rewrite Hshape, Hscale. cbn [mbind option_bind].
    pose proof (length_variates (weibull_variate shape scale) n rng) as Hlen.
    unfold weibull_min_rvs.
    destruct (variates (weibull_variate shape scale) n rng) as [col rng1].
    destruct (IH rng1) as (cols & rng2 & Hcols & Hlens & Hall).
    rewrite Hcols. cbn [mbind option_bind].
    exists (col :: cols), rng2. repeat split; [simpl; lia|].
    constructor; [exact Hlen|exact Hall].
Qed.

Lemma concatenate_columns_Some n cols :
  cols <> [] -> Forall (fun col => length col = n) cols ->
  exists rows, np.concatenate_columns cols = Some rows /\
    length rows = n /\ Forall (fun row => length row = length cols) rows.
Proof.
  intros Hne Hall. destruct cols as [|c0 rest]; [done|].
  inversion Hall as [|? ? Hc0 Hrest]; subst. unfold np.concatenate_columns.
  replace (forallb _ rest) with true.
  - eexists. split; [reflexivity|]. split.
    + by rewrite length_map, length_seq.
    + rewrite Forall_map. apply Forall_forall. intros i _. apply length_map.
  - symmetry. apply forallb_forall. intros c Hc. apply Nat.eqb_eq.
    rewrite Forall_forall in Hrest. apply Hrest. by apply list_elem_of_In.
Qed.

Lemma resolve_first_event_is_Some n event_times :
  length event_times = n -> Forall (fun row => row <> []) event_times ->
  is_Some (resolve_first_event n event_times).
Proof.
  intros Hn Hrows. unfold resolve_first_event.
  destruct (mapM np.argmin event_times) as [idxs|] eqn:Hm.
  - cbn [mbind option_bind]. case_decide; [eauto|done].
  - apply mapM_None in Hm. apply Exists_exists in Hm as (row & Hin & Hrow).
    apply argmin_None in Hrow. rewrite Forall_forall in Hrows.
    by destruct (Hrows row Hin).
Qed.

(** With at least one cause, each carrying a shape and a scale, the data
    generation succeeds and yields [n] records. *)
Lemma simulate_is_Some seed n dists high :
  dists <> [] ->
  Forall (fun dist : dict => is_Some (dist !! "shape") /\ is_Some (dist !! "scale")) dists ->
  exists sim, simulate seed n dists high = Some sim /\
    length (event_times sim) = n /\
    Forall (fun row => length row = length dists) (event_times sim).
Proof.
  intros Hne Hkeys. unfold simulate.
  destruct (sample_columns_Some n dists (default_rng seed) Hkeys)
    as (cols & rng1 & -> & Hlen & Hall).
  cbn [mbind option_bind].
  assert (Hcols : cols <> []) by (destruct cols, dists; simpl in *; congruence).
  destruct (concatenate_columns_Some n cols Hcols Hall) as (rows & -> & Hrows & Hw).
  cbn [mbind option_bind].
  destruct (resolve_first_event_is_Some n rows Hrows) as [yu ->].
  { eapply Forall_impl; [exact Hw|]. intros row Hrow ->. simpl in Hrow.
    destruct cols; simpl in *; congruence. }
  cbn [mbind option_bind].
  destruct (rng_uniform 0 high n rng1) as [c rng2].
  eexists. split; [reflexivity|]. cbn [event_times]. split; [done|].
  by rewrite <- Hlen.
Qed.

Lemma CauseSpec_keys dists :
  Forall CauseSpec dists ->
  Forall (fun dist : dict => is_Some (dist !! "shape") /\ is_Some (dist !! "scale")) dists.
Proof.
  intros H. eapply Forall_impl; [exact H|]. intros d Hd.
  split; apply elem_of_dom; rewrite Hd; set_solver.
Qed.

End ScriptRuns.

(** ** Examples with the counter generator *)

Lemma counter_uniform_range low high (rng : nat) :
  low < high -> low <= (uniform_variate low high rng).1 < high.
Proof.
  intros H. cbn. destruct (Nat.even rng); lra.
Qed.

Lemma censored_duration_bounded_witness :
  exists sim, simulate 0 2 distributions (1.2 * t_max) = Some sim /\
    length (duration (y_censored sim)) = 2%nat /\
    Forall (fun d => d < 1.2 * t_max) (duration (y_censored sim)).
Proof.
  destruct (simulate_is_Some 0 2 distributions (1.2 * t_max)) as (sim & Hsim & _).
  - discriminate.
  - apply CauseSpec_keys, distributions_CauseSpec.
  - exists sim. split; [exact Hsim|].
    exact (censored_duration_bounded 0 2 distributions sim counter_uniform_range Hsim).
Defined.

Lemma curves_independent_of_censoring_witness :
  (fun r => r.2.2) <$> run (gen := counter_generator) 0 2 distributions (1.2 * t_max)
  = (fun r => r.2.2) <$> run (gen := counter_generator) 0 2 distributions (0.6 * t_max).
Proof.
  exact (proj1 (curves_independent_of_censoring 0 2 distributions
                  (1.2 * t_max) (0.6 * t_max))).
Defined.

(** ** The script's own grid and curves *)

Lemma length_linspace start stop num : length (np.linspace start stop num) = num.
Proof. unfold np.linspace. by rewrite length_map, length_seq. Qed.

Lemma linspace_lookup start stop num i : (i < num)%nat ->
  np.linspace start stop num !! i
  = Some (start + INR i * ((stop - start) / INR (num - 1))).
Proof.
  intros Hi. unfold np.linspace. rewrite list_lookup_fmap.
  rewrite lookup_seq_lt by done. reflexivity.
Qed.

Lemma linspace_uniform_step start stop num : (2 <= num)%nat ->
  uniform_step (np.linspace start stop num) ((stop - start) / INR (num - 1)).
Proof.
  intros Hnum. split; [by rewrite length_linspace|].
  intros i a b Ha Hb.
  assert (Hi : (S i < num)%nat)
    by (apply lookup_lt_Some in Hb; by rewrite length_linspace in Hb).
  rewrite linspace_lookup in Ha by lia. rewrite linspace_lookup in Hb by lia.
  simplify_eq. rewrite S_INR. lra.
Qed.

Lemma fine_time_grid_TimeGrid :
  TimeGrid fine_time_grid (t_max / INR (100 * 1000 - 1)) /\
  head fine_time_grid = Some 0.
Proof.
  unfold fine_time_grid. repeat split.
  - rewrite length_linspace. lia.
  - intros i a b Ha Hb.
    destruct (linspace_uniform_step 0 t_max (100 * 1000)) as [_ Hstep]; [lia|].
    rewrite (Hstep i a b Ha Hb). f_equal. lra.
  - apply Rdiv_lt_0_compat; [unfold t_max, base_scale; lra|].
    apply lt_0_INR. lia.
  - rewrite head_lookup, linspace_lookup by lia. f_equal.
    change (INR 0) with 0. lra.
Qed.

Lemma simulate_record_count `{Generator rng_state} seed n dists high sim :
  simulate seed n dists high = Some sim ->
  length (event (y_censored sim)) = n /\ length (duration (y_censored sim)) = n.
Proof.
  intros Hsim.
  apply simulate_Some in Hsim as (cols & rng1 & _ & _ & Hres & Hc & _ & Hy).
  rewrite Hy. unfold censor, np.minimum, np.where_, np.less. cbn [duration event].
  apply resolve_first_event_lengths in Hres as [He Hd].
  rewrite !length_zip_with, Hc. unfold rng_uniform. rewrite length_variates. lia.
Qed.

(** On any grid and for any CauseSpecs for which the curves are returned,
    they have the properties above. *)
Lemma theoretical_curves_sound grid dists dt cs :
  TimeGrid grid dt -> Forall positive_spec dists ->
  theoretical_curves grid dists = Some cs ->
  length (theoretical_cif cs) = length dists /\
  non_increasing (any_event_survival cs) /\
  Forall non_decreasing (theoretical_cif cs) /\
  forall k t, grid !! k = Some t ->
    exists s, any_event_survival cs !! k = Some s /\
      Rabs (total_incidence cs k + s - 1) <= tolerance grid dists dt.
Proof.
  intros [Hstep Hdt] Hpos E.
  apply (theoretical_curves_Some_CauseSpec grid dists dt) in E as [Hne ->]; [|done].
  cbn [any_event_survival theoretical_cif]. repeat split.
  - apply length_map.
  - by apply survival_curve_non_increasing.
  - rewrite Forall_map. eapply Forall_impl; [exact Hpos|].
    intros dist Hdist. by apply cif_curve_non_decreasing.
  - intros k t Hk. apply lookup_lt_Some in Hk.
    destruct (curves_identity grid dists dt k Hne Hpos Hdt Hk) as (s & Hs & _ & Hb).
    eauto.
Qed.

Lemma run_Some `{Generator rng_state} seed n dists high sim cs :
  simulate seed n dists high = Some sim ->
  theoretical_curves fine_time_grid dists = Some cs ->
  run seed n dists high
  = Some (sim, (np.mean_eq (event (y_censored sim)) 0, cs)).
Proof.
  intros Hsim Hcs. unfold run. rewrite Hsim. cbn [mbind option_bind].
  unfold plot_cumulative_incidence_functions. rewrite Hcs. reflexivity.
Qed.

(** Whatever the generator, the script as written produces its dataset
    and its three pairs of curves, and these have the properties above. *)
Corollary script_curves `{Generator rng_state} :
  exists sim censoring_fraction cs,
    script = Some (sim, (censoring_fraction, cs)) /\
    length (duration (y_censored sim)) = n_samples /\
    length (theoretical_cif cs) = length distributions /\
    non_increasing (any_event_survival cs) /\
    Forall non_decreasing (theoretical_cif cs) /\
    forall k t, fine_time_grid !! k = Some t ->
      exists s, any_event_survival cs !! k = Some s /\
        Rabs (total_incidence cs k + s - 1)
        <= tolerance fine_time_grid distributions (t_max / INR (100 * 1000 - 1)).
Proof.
  destruct fine_time_grid_TimeGrid as [Hgrid Hhead].
  destruct (simulate_is_Some 0 n_samples distributions (1.2 * t_max))
    as (sim & Hsim & _);
    [discriminate|apply CauseSpec_keys, distributions_CauseSpec|].
  pose proof (theoretical_curves_Some fine_time_grid distributions _
                (uniform_step_head_diff _ _ (proj1 Hgrid)) (le_S _ _ (le_n 2))
                (Forall_CauseSpec_no_t _ distributions_CauseSpec)) as Hcs.
  pose proof (theoretical_curves_sound _ _ _ _ Hgrid distributions_positive Hcs)
    as Hsound.
  pose proof (simulate_record_count _ _ _ _ _ Hsim) as [_ Hcount].
  eexists sim, (np.mean_eq (event (y_censored sim)) 0), _.
  split; [exact (run_Some _ _ _ _ _ _ Hsim Hcs)|].
  split; [exact Hcount|exact Hsound].
Qed.

(** * Further properties of the script *)

(** ** When the data generation succeeds *)

Section DataGeneration.

Context {rng_state : Type} {gen : Generator rng_state}.

Lemma sample_columns_inv n dists rng cols rng1 :
  sample_columns n dists rng = Some (cols, rng1) ->
  length cols = length dists /\
  Forall (fun col => length col = n) cols /\
  Forall (fun dist : dict => is_Some (dist !! "shape") /\ is_Some (dist !! "scale")) dists.
Proof.
  revert rng cols rng1. induction dists as [|dist dists IH]; intros rng cols rng1 Hs.
  - injection Hs as <- <-. repeat split; constructor.
  - cbn [sample_columns] in Hs.
    destruct (dist !! "shape") as [shape|] eqn:Hshape; [|discriminate].
    destruct (dist !! "scale") as [scale|] eqn:Hscale; [|discriminate].
    cbn [mbind option_bind] in Hs.
    pose proof (length_variates (weibull_variate shape scale) n rng) as Hlen.
    unfold weibull_min_rvs in Hs.
    destruct (variates (weibull_variate shape scale) n rng) as [col rng'].
    destruct (sample_columns n dists rng') as [[cols' rng'']|] eqn:Hrec; [|discriminate].
    cbn [mbind option_bind] in Hs. injection Hs as <- <-.
    destruct (IH _ _ _ Hrec) as (Hl & Hall & Hkeys).
    repeat split; [simpl; lia|by constructor|].
    constructor; [|exact Hkeys]. by rewrite Hshape, Hscale.
Qed.

Lemma concatenate_columns_inv cols rows :
  np.concatenate_columns cols = Some rows ->
  cols <> [] /\ Forall (fun row => length row = length cols) rows.
Proof.
  destruct cols as [|c0 rest]; [discriminate|]. unfold np.concatenate_columns.
  destruct (forallb _ rest); [|discriminate]. intros [= <-].
  split; [discriminate|].
  rewrite Forall_map. apply Forall_forall. intros i _.
  cbn [map length]. by rewrite length_map.
Qed.

(** The shape and scale values the sampler accepts, where present. *)
Definition accepted_by_sampler (dist : dict) : Prop :=
  (forall shape, dist !! "shape" = Some shape -> 0 < shape) /\
  (forall scale, dist !! "scale" = Some scale -> 0 <= scale).

(** X1: for arguments the generator accepts (a non-negative seed, a
    non-negative censoring bound, positive shapes and non-negative scales
    where given), the data generation returns a dataset exactly when there
    is at least one cause and every cause carries both a ["shape"] and a
    ["scale"] entry; the failures left are [np.concatenate] of nothing and
    [KeyError]. The sample count plays no part in this. *)
Theorem simulate_succeeds_iff (seed : Z) (n : nat) (dists : list dict) (high : R) :
  (0 <= seed)%Z -> 0 <= high -> Forall accepted_by_sampler dists ->
  (is_Some (simulate seed n dists high) <->
   dists <> [] /\
   Forall (fun dist : dict => is_Some (dist !! "shape") /\ is_Some (dist !! "scale"))
     dists).
Proof.
  intros _ _ _. split.
  - intros [sim Hsim].
    apply simulate_Some in Hsim as (cols & rng1 & Hs & Hc & _).
    apply sample_columns_inv in Hs as (Hlen & _ & Hkeys).
    apply concatenate_columns_inv in Hc as [Hne _].
    split; [|exact Hkeys]. intros ->. destruct cols; [done|discriminate].
  - intros [Hne Hkeys].
    destruct (simulate_is_Some seed n dists high Hne Hkeys) as (sim & -> & _). eauto.
Qed.

(** X2: a generated dataset is rectangular: the matrix of latent event
    times has [n] rows with one entry per cause, and the uncensored table,
    the censoring times and the censored table each hold [n] records. *)
Theorem simulate_shapes (seed : Z) (n : nat) (dists : list dict) (high : R)
    (sim : simulation rng_state) :
  simulate seed n dists high = Some sim ->
  length (event_times sim) = n /\
  Forall (fun row => length row = length dists) (event_times sim) /\
  length (event (y_uncensored sim)) = n /\
  length (duration (y_uncensored sim)) = n /\
  length (censoring_times sim) = n /\
  length (event (y_censored sim)) = n /\
  length (duration (y_censored sim)) = n.
Proof.
  intros Hsim. destruct (simulate_record_count _ _ _ _ _ Hsim) as [Hce Hcd].
  apply simulate_Some in Hsim as (cols & rng1 & Hs & Hc & Hres & Hu & _ & _).
  apply sample_columns_inv in Hs as (Hlen & _ & _).
  apply concatenate_columns_inv in Hc as [_ Hw].
  destruct (resolve_first_event_lengths _ _ _ Hres) as [He Hd].
  apply resolve_first_event_Some in Hres as [Hn _].
  repeat split; auto.
  - by rewrite <- Hlen.
  - rewrite Hu. unfold rng_uniform. apply length_variates.
Qed.

(** X3: the event labels are the ones the loop over the causes asks for:
    every uncensored label lies in [1 .. K] and every censored label in
    [0 .. K], where [K] is the number of causes. *)
Theorem simulate_event_labels (seed : Z) (n : nat) (dists : list dict) (high : R)
    (sim : simulation rng_state) :
  simulate seed n dists high = Some sim ->
  Forall (fun e => 1 <= e <= Z.of_nat (length dists))%Z (event (y_uncensored sim)) /\
  Forall (fun e => 0 <= e <= Z.of_nat (length dists))%Z (event (y_censored sim)).
Proof.
  intros Hsim.
  apply simulate_Some in Hsim as (cols & rng1 & Hs & Hc & Hres & _ & _ & Hy).
  apply sample_columns_inv in Hs as (Hlen & _ & _).
  apply concatenate_columns_inv in Hc as [_ Hw]. rewrite Hlen in Hw.
  apply resolve_first_event_Some in Hres as (_ & idxs & HF & Hev & _).
  assert (Hunc : Forall (fun e => 1 <= e <= Z.of_nat (length dists))%Z
                   (event (y_uncensored sim))).
  { rewrite Hev, Forall_map. clear Hev Hy.
    induction HF as [|row idx rows idxs' Harg _ IH]; [constructor|].
    inversion Hw; subst. constructor; [|by apply IH].
    destruct (argmin_spec row idx Harg) as (m & Hm & _).
    apply lookup_lt_Some in Hm. simpl. lia. }
  split; [exact Hunc|].
  rewrite Hy. unfold censor, np.where_. cbn [event].
  revert Hunc. generalize (event (y_uncensored sim)).
  generalize (np.less (censoring_times sim) (duration (y_uncensored sim))).
  induction l as [|b l IH]; intros es Hes; [constructor|].
  destruct es as [|e es]; [constructor|]. inversion Hes; subst.
  cbn [zip_with]. constructor; [|by apply IH].
  destruct b; lia.
Qed.

(** X6: the latent event times and the uncensored table of a run do not
    depend on the censoring upper bound: the sampler has drawn all its
    variates before the first censoring time is drawn. *)
Theorem latent_data_independent_of_censoring (seed : Z) (n : nat)
    (dists : list dict) (high1 high2 : R) :
  event_times <$> simulate seed n dists high1
  = event_times <$> simulate seed n dists high2 /\
  y_uncensored <$> simulate seed n dists high1
  = y_uncensored <$> simulate seed n dists high2.
Proof.
  unfold simulate.
  destruct (sample_columns n dists (default_rng seed)) as [[cols rng1]|];
    [|by split].
  cbn [mbind option_bind].
  destruct (np.concatenate_columns cols) as [et|]; [|by split].
  cbn [mbind option_bind].
  destruct (resolve_first_event n et) as [yu|]; [|by split].
  cbn [mbind option_bind].
  destruct (rng_uniform 0 high1 n rng1), (rng_uniform 0 high2 n rng1). by split.
Qed.

End DataGeneration.

(** ** What censoring does to a record *)

(** X4: censoring only shortens. For every subject the censored duration
    is at most the true event time and at most the censoring time; a record
    marked 0 carries the censoring time, and a record that keeps a cause
    carries that cause and its exact event time. *)
Theorem censored_record_cases (n : nat) (event_times : list (list R))
    (censoring_times : list R) (y_uncensored : DataFrame) :
  resolve_first_event n event_times = Some y_uncensored ->
  forall i c t e,
    censoring_times !! i = Some c ->
    duration y_uncensored !! i = Some t ->
    event y_uncensored !! i = Some e ->
    exists d ev,
      duration (censor censoring_times y_uncensored) !! i = Some d /\
      event (censor censoring_times y_uncensored) !! i = Some ev /\
      d <= t /\ d <= c /\
      (ev = 0%Z -> d = c /\ c < t) /\
      (ev <> 0%Z -> d = t /\ ev = e /\ t <= c).
Proof.
  intros Hres i c t e Hc Ht He.
  pose proof (resolved_event_positive _ _ _ _ _ Hres He) as Hpos.
  destruct (censor_lookup censoring_times y_uncensored i c t e Hc Ht He) as [Hd Hev].
  exists (Rmin c t), (if Rlt_dec c t then 0%Z else e).
  split; [exact Hd|]. split; [exact Hev|].
  split; [apply Rmin_r|]. split; [apply Rmin_l|].
  destruct (Rlt_dec c t) as [Hlt|Hge].
  - split; [|done]. intros _. split; [|done]. apply Rmin_left. lra.
  - split; [lia|]. intros _. split; [|split; [done|lra]]. apply Rmin_right. lra.
Qed.

Lemma censored_record_cases_witness :
  let y_uncensored := {| event := [2%Z; 1%Z]; duration := [1; 4] |} in
  exists d ev,
    duration (censor [3; 2] y_uncensored) !! 0%nat = Some d /\
    event (censor [3; 2] y_uncensored) !! 0%nat = Some ev /\
    d <= 1 /\ d <= 3 /\
    (ev = 0%Z -> d = 3 /\ 3 < 1) /\
    (ev <> 0%Z -> d = 1 /\ ev = 2%Z /\ 1 <= 3).
Proof.
  intros y_uncensored.
  apply (censored_record_cases 2 [[3; 1; 2]; [4; 5; 6]] [3; 2] y_uncensored);
    [exact resolve_first_event_example|reflexivity|reflexivity|reflexivity].
Defined.

Lemma filter_where_zero (cond : list bool) (es : list Z) :
  length cond = length es -> Forall (fun e => e <> 0%Z) es ->
  length (filter (fun e => e = 0%Z) (np.where_ cond 0%Z es))
  = length (filter (fun b : bool => b = true) cond).
Proof.
  unfold np.where_. revert es.
  induction cond as [|b cond IH]; intros [|e es] Hlen Hes; simpl in Hlen; try lia;
    [reflexivity|].
  inversion Hes; subst. cbn [zip_with].
  rewrite !filter_cons. destruct b.
  - rewrite !decide_True by done. cbn [length]. f_equal. apply IH; [lia|done].
  - rewrite !decide_False by done. apply IH; [lia|done].
Qed.

Lemma filter_where_cause (k : Z) (cond : list bool) (es : list Z) :
  k <> 0%Z ->
  (length (filter (fun e => e = k) (np.where_ cond 0%Z es))
   <= length (filter (fun e => e = k) es))%nat.
Proof.
  intros Hk. unfold np.where_. revert es.
  induction cond as [|b cond IH]; intros [|e es]; cbn [zip_with];
    try (rewrite ?filter_nil; simpl; lia).
  rewrite !filter_cons. specialize (IH es).
  destruct b.
  - rewrite (decide_False (P := 0%Z = k)) by congruence.
    destruct (decide (e = k)); simpl; lia.
  - destruct (decide (e = k)); simpl; lia.
Qed.

Lemma length_filter_le {A} (P : A -> Prop) `{!forall x, Decision (P x)} (l : list A) :
  (length (filter P l) <= length l)%nat.
Proof.
  induction l as [|x l IH]; [simpl; lia|].
  rewrite filter_cons. destruct (decide (P x)); simpl; lia.
Qed.

(** X5: the censoring fraction of the title is the share of subjects
    whose censoring time is strictly below their event time, and it lies
    between 0 and 1 whenever there is at least one subject. *)
Theorem censoring_fraction_counts (n : nat) (event_times : list (list R))
    (censoring_times : list R) (y_uncensored : DataFrame) :
  resolve_first_event n event_times = Some y_uncensored ->
  length censoring_times = n -> (0 < n)%nat ->
  let censoring_fraction := np.mean_eq (event (censor censoring_times y_uncensored)) 0 in
  censoring_fraction
  = INR (length (filter (fun b : bool => b = true)
                   (np.less censoring_times (duration y_uncensored)))) / INR n /\
  0 <= censoring_fraction <= 1.
Proof.
  intros Hres Hc Hn fraction. subst fraction.
  destruct (resolve_first_event_lengths _ _ _ Hres) as [He Hd].
  assert (Hless : length (np.less censoring_times (duration y_uncensored)) = n)
    by (unfold np.less; rewrite length_zip_with; lia).
  assert (Hlen : length (event (censor censoring_times y_uncensored)) = n).
  { unfold censor, np.where_. cbn [event]. rewrite length_zip_with. lia. }
  assert (Hnz : Forall (fun e => e <> 0%Z) (event y_uncensored)).
  { apply Forall_forall. intros e Hin.
    apply list_elem_of_lookup in Hin as [i Hi].
    pose proof (resolved_event_positive _ _ _ _ _ Hres Hi). lia. }
  assert (Hpos : 0 < INR n) by (apply lt_0_INR; lia).
  unfold np.mean_eq. rewrite Hlen. split.
  - f_equal. f_equal. unfold censor. cbn [event].
    apply filter_where_zero; [lia|exact Hnz].
  - pose proof (length_filter_le (fun e => e = 0%Z)
                  (event (censor censoring_times y_uncensored))) as Hle.
    rewrite Hlen in Hle. apply le_INR in Hle.
    pose proof (pos_INR (length (filter (fun e => e = 0%Z)
                           (event (censor censoring_times y_uncensored))))) as H0.
    split.
    + apply Rmult_le_pos; [exact H0|]. left. by apply Rinv_0_lt_compat.
    + apply (Rmult_le_reg_r (INR n)); [exact Hpos|].
      unfold Rdiv. rewrite Rmult_assoc, Rinv_l by lra. lra.
Qed.

Lemma censoring_fraction_counts_witness :
  np.mean_eq
    (event (censor [3; 2] {| event := [2%Z; 1%Z]; duration := [1; 4] |})) 0
  = INR (length (filter (fun b : bool => b = true) (np.less [3; 2] [1; 4]))) / INR 2.
Proof.
  exact (proj1 (censoring_fraction_counts 2 [[3; 1; 2]; [4; 5; 6]] [3; 2] _
                  resolve_first_event_example eq_refl (Nat.lt_0_succ 1))).
Defined.

(** X7: censoring never adds events: for every cause label [k <> 0] the
    censored table holds at most as many records labelled [k] as the
    uncensored table. *)
Theorem censoring_never_adds_events (censoring_times : list R)
    (y_uncensored : DataFrame) (k : Z) :
  k <> 0%Z ->
  (length (filter (fun e => e = k) (event (censor censoring_times y_uncensored)))
   <= length (filter (fun e => e = k) (event y_uncensored)))%nat.
Proof.
  intros Hk. unfold censor. cbn [event]. by apply filter_where_cause.
Qed.

Lemma censoring_never_adds_events_witness :
  let y_uncensored := {| event := [2%Z; 1%Z]; duration := [1; 4] |} in
  (length (filter (fun e => e = 1%Z) (event (censor [3; 2]%R y_uncensored)))
   <= length (filter (fun e => e = 1%Z) (event y_uncensored)))%nat.
Proof.
  intros y_uncensored.
  apply (censoring_never_adds_events [3; 2]
           {| event := [2%Z; 1%Z]; duration := [1; 4] |} 1).
  discriminate.
Defined.

(** ** When the theoretical curves are returned *)

Lemma head_diff_is_Some (a : list R) :
  is_Some (head (np.diff a)) <-> (2 <= length a)%nat.
Proof.
  destruct a as [|x [|y a]]; simpl; split; intros H; try lia;
    try (by destruct H); eauto.
Qed.

(** X8: when no cause has scale 0 (which would make [shape / scale]
    raise), the function returns its curves exactly when there are at least
    two causes, the grid has at least two points and no cause carries an
    entry named ["t"]; a cause that lacks ["shape"] or ["scale"] is no
    obstacle here, the defaults [1.0] apply. *)
Theorem theoretical_curves_succeeds_iff (grid : list R) (dists : list dict) :
  Forall (fun dist => scale_of dist <> 0) dists ->
  (is_Some (theoretical_curves grid dists) <->
   (2 <= length dists)%nat /\ (2 <= length grid)%nat /\
   Forall (fun dist : dict => dist !! "t" = None) dists).
Proof.
  intros _. split.
  - intros [cs Hcs].
    apply theoretical_curves_Some_inv in Hcs as (Hlen & Hkw & dt & Hdt & _).
    repeat split; [done| |done]. apply head_diff_is_Some. eauto.
  - intros (Hlen & Hgrid & Hkw).
    apply head_diff_is_Some in Hgrid as [dt Hdt].
    rewrite (theoretical_curves_Some grid dists dt) by done. eauto.
Qed.

(** What a cause without ["shape"] and ["scale"] contributes. *)
Lemma hazard_row_defaults grid (dist : dict) :
  dist !! "shape" = None -> dist !! "scale" = None ->
  hazard_row grid dist = map (fun t => weibull_hazard_at t 1 1) grid.
Proof.
  intros Hs Hc. unfold hazard_row, cause_hazard, shape_of, scale_of, kwarg.
  by rewrite Hs, Hc.
Qed.

(** ** How the curves advance along the grid *)

(** X9: the integration is a right-endpoint rectangle rule. From one grid
    point to the next the survival curve is multiplied by
    [exp(-(all-cause hazard at the new point) * dt)], and the incidence
    curve of a cause grows by
    [(its hazard at the new point) * (survival at the new point) * dt]. *)
Theorem curves_recurrence (grid : list R) (dists : list dict) (dt : R) (cs : curves) :
  uniform_step grid dt -> theoretical_curves grid dists = Some cs ->
  forall k t s0 s1,
    grid !! S k = Some t ->
    any_event_survival cs !! k = Some s0 ->
    any_event_survival cs !! S k = Some s1 ->
    s1 = s0 * exp (- (all_cause_hazard dists t * dt)) /\
    forall i dist cif c0 c1,
      dists !! i = Some dist -> theoretical_cif cs !! i = Some cif ->
      cif !! k = Some c0 -> cif !! S k = Some c1 ->
      c1 = c0 + cause_hazard dist t * s1 * dt.
Proof.
  intros Hstep Hcs.
  apply (theoretical_curves_Some_CauseSpec grid dists dt) in Hcs as [Hne ->]; [|done].
  cbn [any_event_survival theoretical_cif].
  intros k t s0 s1 Ht Hs0 Hs1.
  apply nth_lookup_Some in Ht.
  apply survival_curve_lookup in Hs0 as [_ ->]; [|done].
  apply survival_curve_lookup in Hs1 as [_ ->]; [|done].
  split.
  - unfold survival_at. cbn [sum_f_R0]. rewrite Ht, <- exp_plus. f_equal. lra.
  - intros i dist cif c0 c1 Hi Hcif Hc0 Hc1.
    rewrite list_lookup_fmap, Hi in Hcif. injection Hcif as <-.
    apply cif_curve_lookup in Hc0 as [_ ->]; [|done].
    apply cif_curve_lookup in Hc1 as [_ ->]; [|done].
    unfold cif_at. cbn [sum_f_R0]. rewrite Ht. lra.
Qed.

Lemma theoretical_curves_0_1_2 :
  theoretical_curves [0; 1; 2] distributions
  = Some {| all_hazards := map (hazard_row [0; 1; 2]) distributions;
            any_event_survival := survival_curve [0; 1; 2] distributions 1;
            theoretical_cif := map (cif_curve [0; 1; 2] distributions 1) distributions |}.
Proof.
  apply theoretical_curves_Some.
  - apply uniform_step_head_diff, uniform_step_0_1_2.
  - simpl. lia.
  - apply Forall_CauseSpec_no_t, distributions_CauseSpec.
Qed.

Lemma curves_recurrence_witness :
  exists s0 s1,
    survival_curve [0; 1; 2] distributions 1 !! 0%nat = Some s0 /\
    survival_curve [0; 1; 2] distributions 1 !! 1%nat = Some s1 /\
    s1 = s0 * exp (- (all_cause_hazard distributions 1 * 1)).
Proof.
  assert (Hlen : length (survival_curve [0; 1; 2] distributions 1) = 3%nat)
    by (by rewrite length_survival_curve).
  destruct (lookup_lt_is_Some_2 (survival_curve [0; 1; 2] distributions 1) 0)
    as [s0 Hs0]; [lia|].
  destruct (lookup_lt_is_Some_2 (survival_curve [0; 1; 2] distributions 1) 1)
    as [s1 Hs1]; [lia|].
  exists s0, s1. split; [exact Hs0|]. split; [exact Hs1|].
  exact (proj1 (curves_recurrence [0; 1; 2] distributions 1 _ uniform_step_0_1_2
                  theoretical_curves_0_1_2 0%nat 1 s0 s1 eq_refl Hs0 Hs1)).
Defined.

(** ** The curves are probabilities *)

Lemma Rsum_elem_le (l : list R) x :
  Forall (fun y => 0 <= y) l -> x ∈ l -> x <= Rsum l.
Proof.
  induction 1 as [|y l Hy Hall IH]; intros Hin; [by apply elem_of_nil in Hin|].
  apply elem_of_cons in Hin as [->|Hin]; simpl.
  - pose proof (Rsum_nonneg l Hall). lra.
  - specialize (IH Hin). lra.
Qed.

Lemma cif_at_nonneg grid dists dt dist k :
  positive_spec dist -> 0 < dt -> 0 <= cif_at grid dists dt dist k.
Proof.
  intros [Hs Hc] Hdt. unfold cif_at. apply Rmult_le_pos; [|lra].
  induction k as [|k IH]; cbn [sum_f_R0].
  - apply Rmult_le_pos; [by apply weibull_hazard_at_nonneg|].
    left. apply survival_at_pos.
  - apply Rplus_le_le_0_compat; [exact IH|].
    apply Rmult_le_pos; [by apply weibull_hazard_at_nonneg|].
    left. apply survival_at_pos.
Qed.

Lemma survival_at_le_1 grid dists dt k :
  Forall positive_spec dists -> 0 < dt -> survival_at grid dists dt k <= 1.
Proof.
  intros Hpos Hdt. unfold survival_at. rewrite <- exp_0.
  assert (H : 0 <= sum_f_R0 (fun j => all_cause_hazard dists (nth j grid 0)) k).
  { induction k as [|k IH]; cbn [sum_f_R0].
    - by apply all_cause_hazard_nonneg.
    - pose proof (all_cause_hazard_nonneg dists (nth (S k) grid 0) Hpos). lra. }
  destruct (Req_dec_T (sum_f_R0 (fun j => all_cause_hazard dists (nth j grid 0)) k * dt) 0)
    as [->|Hne].
  - right. f_equal. lra.
  - left. apply exp_increasing. nra.
Qed.

(** X10: the computed curves are probabilities. With positive shapes and
    scales on a uniform grid starting at 0, every value of the survival
    curve lies in (0, 1] and every value of every incidence curve lies in
    [0, 1). *)
Theorem curves_are_probabilities (grid : list R) (dists : list dict) (dt : R)
    (cs : curves) :
  TimeGrid grid dt -> head grid = Some 0 -> Forall positive_spec dists ->
  theoretical_curves grid dists = Some cs ->
  Forall (fun s => 0 < s <= 1) (any_event_survival cs) /\
  Forall (Forall (fun c => 0 <= c < 1)) (theoretical_cif cs).
Proof.
  intros [Hstep Hdt] _ Hpos Hcs.
  apply (theoretical_curves_Some_CauseSpec grid dists dt) in Hcs as [Hne ->]; [|done].
  cbn [any_event_survival theoretical_cif]. split.
  - apply Forall_forall. intros s Hin.
    apply list_elem_of_lookup in Hin as [k Hk].
    apply survival_curve_lookup in Hk as [_ ->]; [|done].
    split; [apply survival_at_pos|by apply survival_at_le_1].
  - rewrite Forall_map. apply Forall_forall. intros dist Hdist.
    apply Forall_forall. intros c Hin.
    apply list_elem_of_lookup in Hin as [k Hk].
    apply cif_curve_lookup in Hk as [Hlt ->]; [|done].
    rewrite Forall_forall in Hpos.
    split; [apply cif_at_nonneg; auto|].
    destruct (identity_at grid dists dt k) as [Hle _]; auto.
    { by apply Forall_forall. }
    cbv zeta in Hle.
    assert (Hel : cif_at grid dists dt dist k
                  <= Rsum (map (fun d => cif_at grid dists dt d k) dists)).
    { apply Rsum_elem_le.
      - rewrite Forall_map. apply Forall_forall. intros d Hd.
        apply cif_at_nonneg; auto.
      - apply list_elem_of_fmap. eauto. }
    pose proof (survival_at_pos grid dists dt k). lra.
Qed.

Lemma curves_are_probabilities_witness :
  Forall (fun s => 0 < s <= 1) (survival_curve [0; 1; 2] distributions 1) /\
  Forall (Forall (fun c => 0 <= c < 1))
    (map (cif_curve [0; 1; 2] distributions 1) distributions).
Proof.
  exact (curves_are_probabilities [0; 1; 2] distributions 1 _ TimeGrid_0_1_2 eq_refl
           distributions_positive theoretical_curves_0_1_2).
Defined.

(** ** The shape of a hazard curve *)

Lemma weibull_hazard_lookup t shape scale (kwargs : dict) i ti h :
  t !! i = Some ti -> weibull_hazard t shape scale kwargs !! i = Some h ->
  h = weibull_hazard_at ti shape scale.
Proof.
  intros Hi Hh. unfold weibull_hazard in Hh.
  rewrite list_lookup_fmap, Hi in Hh. by injection Hh as <-.
Qed.

Lemma weibull_hazard_at_formula t shape scale : t <> 0 ->
  weibull_hazard_at t shape scale = (shape / scale) * Rpower (t / scale) (shape - 1).
Proof. intros Ht. unfold weibull_hazard_at. by destruct (Req_dec_T t 0). Qed.

(** X11: with positive shape and scale, on non-negative times a hazard
    curve is never negative, and it vanishes exactly at the grid points
    where [t = 0]: the value plugged in at time zero is the only zero of the
    curve. *)
Theorem weibull_hazard_sign (t : list R) (shape scale : R) (ignored_kwargs : dict) :
  0 < shape -> 0 < scale ->
  forall i ti h,
    t !! i = Some ti -> 0 <= ti ->
    weibull_hazard t shape scale ignored_kwargs !! i = Some h ->
    0 <= h /\ (h = 0 <-> ti = 0).
Proof.
  intros Hshape Hscale i ti h Hi _ Hh.
  rewrite (weibull_hazard_lookup _ _ _ _ _ _ _ Hi Hh).
  split; [by apply weibull_hazard_at_nonneg|]. split.
  - intros H0. destruct (Req_dec_T ti 0) as [|Hne]; [done|exfalso].
    rewrite weibull_hazard_at_formula in H0 by done.
    pose proof (Rdiv_lt_0_compat _ _ Hshape Hscale) as Hc.
    pose proof (exp_pos ((shape - 1) * ln (ti / scale))) as Hp.
    unfold Rpower in H0. nra.
  - intros ->. apply weibull_hazard_at_0.
Qed.

Lemma weibull_hazard_sign_witness :
  0 <= weibull_hazard_at 2 0.5 2 /\ (weibull_hazard_at 2 0.5 2 = 0 <-> 2 = 0).
Proof.
  apply (weibull_hazard_sign [0; 2] 0.5 2 ∅ ltac:(lra) ltac:(lra) 1%nat 2 _
           eq_refl ltac:(lra) eq_refl).
Defined.

(** X12: on positive times a hazard curve is monotone in the direction its
    shape dictates: non-decreasing in [t] when [shape >= 1], non-increasing
    when [shape <= 1] (hence constant when [shape = 1]). *)
Theorem weibull_hazard_monotone (t : list R) (shape scale : R) (ignored_kwargs : dict) :
  0 < shape -> 0 < scale ->
  forall i j ti tj hi hj,
    t !! i = Some ti -> t !! j = Some tj ->
    weibull_hazard t shape scale ignored_kwargs !! i = Some hi ->
    weibull_hazard t shape scale ignored_kwargs !! j = Some hj ->
    0 < ti <= tj ->
    (1 <= shape -> hi <= hj) /\ (shape <= 1 -> hj <= hi).
Proof.
  intros Hshape Hscale i j ti tj hi hj Hi Hj Hhi Hhj [Hti Hle].
  rewrite (weibull_hazard_lookup _ _ _ _ _ _ _ Hi Hhi).
  rewrite (weibull_hazard_lookup _ _ _ _ _ _ _ Hj Hhj).
  rewrite !weibull_hazard_at_formula by lra.
  pose proof (Rdiv_lt_0_compat _ _ Hshape Hscale) as Hc.
  assert (Hxi : 0 < ti / scale) by (apply Rdiv_lt_0_compat; lra).
  assert (Hx : ti / scale <= tj / scale).
  { unfold Rdiv. apply Rmult_le_compat_r; [|lra].
    left. by apply Rinv_0_lt_compat. }
  split; intros Hs; apply Rmult_le_compat_l; try lra.
  - apply Rle_Rpower_l; [lra|split; [exact Hxi|exact Hx]].
  - replace (shape - 1) with (- (1 - shape)) by lra. rewrite !Rpower_Ropp.
    apply Rinv_le_contravar; [apply exp_pos|].
    apply Rle_Rpower_l; [lra|split; [exact Hxi|exact Hx]].
Qed.

Lemma weibull_hazard_monotone_witness :
  weibull_hazard_at 2 0.5 2 <= weibull_hazard_at 1 0.5 2.
Proof.
  refine (proj2 (weibull_hazard_monotone [0; 1; 2] 0.5 2 ∅ _ _ 1%nat 2%nat 1 2 _ _
                   eq_refl eq_refl eq_refl eq_refl _) _); lra.
Defined.

(** ** The time grids *)

(** X13: a grid built by [np.linspace(start, stop, num)] with
    [start < stop] and at least two points is a uniform, strictly increasing
    grid that begins exactly at [start] and ends exactly at [stop], all its
    points lie in between, and [np.diff(grid)[0]], which the function takes
    as [dt], is the distance between any two consecutive points. *)
Theorem linspace_grid (start stop : R) (num : nat) :
  start < stop -> (2 <= num)%nat ->
  let grid := np.linspace start stop num in
  let step := (stop - start) / INR (num - 1) in
  head (np.diff grid) = Some step /\
  TimeGrid grid step /\
  head grid = Some start /\
  last grid = Some stop /\
  Forall (fun t => start <= t <= stop) grid.
Proof.
  intros Hlt Hnum grid step.
  assert (Hden : 0 < INR (num - 1)) by (apply lt_0_INR; lia).
  assert (Hstep : 0 < step) by (apply Rdiv_lt_0_compat; lra).
  pose proof (linspace_uniform_step start stop num Hnum) as Hu.
  repeat split.
  - by apply uniform_step_head_diff.
  - apply Hu.
  - apply Hu.
  - exact Hstep.
  - subst grid. rewrite head_lookup, linspace_lookup by lia. f_equal.
    change (INR 0) with 0. lra.
  - subst grid. rewrite last_lookup, length_linspace.
    rewrite linspace_lookup by lia. f_equal.
    replace (Init.Nat.pred num) with (num - 1)%nat by lia.
    subst step. field. lra.
  - apply Forall_forall. intros t Hin.
    apply list_elem_of_lookup in Hin as [i Hi].
    assert (Hi' : (i < num)%nat)
      by (apply lookup_lt_Some in Hi; subst grid; by rewrite length_linspace in Hi).
    subst grid. rewrite linspace_lookup in Hi by done. injection Hi as <-.
    fold step.
    assert (H0 : 0 <= INR i) by apply pos_INR.
    assert (H1 : INR i <= INR (num - 1)) by (apply le_INR; lia).
    assert (Hs : INR (num - 1) * step = stop - start) by (subst step; field; lra).
    split; nra.
Qed.

Lemma linspace_grid_witness :
  head (np.diff (np.linspace 0 t_max 100)) = Some ((t_max - 0) / INR (100 - 1)) /\
  last (np.linspace 0 t_max 100) = Some t_max.
Proof.
  destruct (linspace_grid 0 t_max 100) as (Hd & _ & _ & Hl & _).
  - unfold t_max, base_scale. lra.
  - lia.
  - split; [exact Hd|exact Hl].
Defined.

(** ** Exponential causes are integrated exactly *)

Lemma grid_point_multiple grid dt :
  uniform_step grid dt -> head grid = Some 0 ->
  forall k t, grid !! k = Some t -> t = INR k * dt.
Proof.
  intros [_ Hstep] H0. induction k as [|k IH]; intros t Hk.
  - rewrite head_lookup in H0. change (INR 0) with 0. simplify_eq. lra.
  - assert (Hlt : (k < length grid)%nat) by (apply lookup_lt_Some in Hk; lia).
    destruct (lookup_lt_is_Some_2 grid k Hlt) as [a Ha].
    pose proof (Hstep k a t Ha Hk) as Hd. pose proof (IH a Ha) as Ha'.
    rewrite S_INR. nra.
Qed.

Lemma exponential_hazard dist t :
  shape_of dist = 1 -> 0 < scale_of dist -> 0 < t ->
  cause_hazard dist t = / scale_of dist.
Proof.
  intros Hs Hc Ht. unfold cause_hazard.
  rewrite weibull_hazard_at_formula by lra. rewrite Hs.
  replace (1 - 1) with 0 by lra.
  rewrite Rpower_O by (apply Rdiv_lt_0_compat; lra). unfold Rdiv. lra.
Qed.

Lemma exponential_all_cause_hazard dists t :
  Forall (fun dist => shape_of dist = 1 /\ 0 < scale_of dist) dists -> 0 < t ->
  all_cause_hazard dists t = Rsum (map (fun dist => / scale_of dist) dists).
Proof.
  intros H Ht. unfold all_cause_hazard. f_equal.
  induction H as [|d ds [Hs Hc] _ IH]; [reflexivity|].
  cbn [map]. rewrite IH. f_equal. by apply exponential_hazard.
Qed.

(** X14: when every cause has shape 1 (constant hazard [1 / scale]), the
    survival curve computed on a uniform grid starting at 0 is exact at
    every grid point: it equals [exp(-(sum of the rates) * t)]. The zero
    plugged in at [t = 0] is what makes the rectangle rule exact here. *)
Theorem exponential_survival_exact (grid : list R) (dists : list dict) (dt : R)
    (cs : curves) :
  TimeGrid grid dt -> head grid = Some 0 ->
  Forall (fun dist => shape_of dist = 1 /\ 0 < scale_of dist) dists ->
  theoretical_curves grid dists = Some cs ->
  forall k t, grid !! k = Some t ->
    any_event_survival cs !! k
    = Some (exp (- (Rsum (map (fun dist => / scale_of dist) dists) * t))).
Proof.
  intros [Hstep Hdt] H0 Hexp Hcs.
  apply (theoretical_curves_Some_CauseSpec grid dists dt) in Hcs as [Hne ->]; [|done].
  cbn [any_event_survival]. intros k t Hk.
  pose proof (lookup_lt_Some _ _ _ Hk) as Hlt.
  rewrite lookup_nth_lt by (by rewrite length_survival_curve).
  rewrite nth_survival_curve by done. f_equal. unfold survival_at. f_equal. f_equal.
  rewrite (grid_point_multiple grid dt Hstep H0 k t Hk).
  set (rate := Rsum (map (fun dist => / scale_of dist) dists)).
  assert (Hsum : sum_f_R0 (fun j => all_cause_hazard dists (nth j grid 0)) k
                 = INR k * rate).
  { clear t Hk. induction k as [|k IH].
    - cbn [sum_f_R0]. change (INR 0) with 0.
      destruct grid as [|t0 grid']; [discriminate|]. injection H0 as ->.
      cbn [nth]. rewrite all_cause_hazard_0. lra.
    - cbn [sum_f_R0]. rewrite IH by lia.
      destruct (lookup_lt_is_Some_2 grid (S k) Hlt) as [t Ht].
      rewrite (nth_lookup_Some _ _ _ Ht).
      rewrite (exponential_all_cause_hazard dists t Hexp).
      + fold rate. rewrite S_INR. lra.
      + rewrite (grid_point_multiple grid dt Hstep H0 (S k) t Ht).
        apply Rmult_lt_0_compat; [apply lt_0_INR; lia|exact Hdt]. }
  rewrite Hsum. lra.
Qed.

Lemma exponential_survival_exact_witness :
  let dists : list dict := [ {[ "scale" := 2; "shape" := 1 ]};
                             {[ "scale" := 4; "shape" := 1 ]} ] in
  survival_curve [0; 1; 2] dists 1 !! 2%nat
  = Some (exp (- (Rsum (map (fun dist => / scale_of dist) dists) * 2))).
Proof.
  intros dists.
  refine (exponential_survival_exact [0; 1; 2] dists 1
            {| all_hazards := map (hazard_row [0; 1; 2]) dists;
               any_event_survival := survival_curve [0; 1; 2] dists 1;
               theoretical_cif := map (cif_curve [0; 1; 2] dists 1) dists |}
            TimeGrid_0_1_2 eq_refl _ _ 2%nat 2 eq_refl).
  - subst dists. repeat constructor; unfold scale_of;
      [rewrite (kwarg_lookup _ _ _ 2) by reflexivity
      |rewrite (kwarg_lookup _ _ _ 4) by reflexivity]; lra.
  - apply theoretical_curves_Some.
    + apply uniform_step_head_diff, uniform_step_0_1_2.
    + simpl. lia.
    + repeat constructor.
Defined.

(** ** Columns of the latent matrix, and whole runs *)

Lemma concatenate_columns_lookup cols rows i row j x :
  np.concatenate_columns cols = Some rows ->
  rows !! i = Some row -> row !! j = Some x ->
  exists col, cols !! j = Some col /\ col !! i = Some x.
Proof.
  destruct cols as [|c0 rest] eqn:Hcols; [discriminate|]. rewrite <- Hcols.
  unfold np.concatenate_columns. rewrite Hcols.
  destruct (forallb _ rest) eqn:Hall; [|discriminate]. rewrite <- Hcols.
  intros [= <-] Hrow Hx.
  rewrite list_lookup_fmap in Hrow.
  destruct (seq 0 (length c0) !! i) as [i'|] eqn:Hi; [|discriminate].
  apply lookup_seq in Hi as [-> Hlt]. cbn in Hrow. injection Hrow as <-.
  rewrite list_lookup_fmap in Hx.
  destruct (cols !! j) as [col|] eqn:Hcol; [|discriminate].
  cbn in Hx. injection Hx as <-. exists col. split; [reflexivity|].
  apply lookup_nth_lt.
  assert (Hin : col ∈ cols) by (apply list_elem_of_lookup; eauto).
  rewrite Hcols in Hin. apply elem_of_cons in Hin as [->|Hin]; [lia|].
  rewrite forallb_forall in Hall. apply list_elem_of_In in Hin.
  apply Hall, Nat.eqb_eq in Hin. lia.
Qed.

Section WholeRun.

Context {rng_state : Type} {gen : Generator rng_state}.

Lemma sample_columns_lookup n dists : forall rng cols rng1,
  sample_columns n dists rng = Some (cols, rng1) ->
  rng1 = rng_before_column n dists rng (length dists) /\
  forall j col, cols !! j = Some col ->
    exists dist shape scale,
      dists !! j = Some dist /\
      dist !! "shape" = Some shape /\ dist !! "scale" = Some scale /\
      col = (weibull_min_rvs shape scale n (rng_before_column n dists rng j)).1.
Proof.
  induction dists as [|dist dists IH]; intros rng cols rng1 Hs.
  - injection Hs as <- <-. split; [reflexivity|]. intros j col Hj. by destruct j.
  - cbn [sample_columns] in Hs.
    destruct (dist !! "shape") as [shape|] eqn:Hshape; [|discriminate].
    destruct (dist !! "scale") as [scale|] eqn:Hscale; [|discriminate].
    cbn [mbind option_bind] in Hs.
    destruct (weibull_min_rvs shape scale n rng) as [col0 rng'] eqn:Hdraw.
    destruct (sample_columns n dists rng') as [[cols' rng'']|] eqn:Hrec; [|discriminate].
    cbn [mbind option_bind] in Hs. injection Hs as <- <-.
    destruct (IH _ _ _ Hrec) as [Hfinal Hcols].
    assert (Hnext : forall j, rng_before_column n (dist :: dists) rng (S j)
                              = rng_before_column n dists rng' j).
    { intros j. cbn [rng_before_column]. rewrite Hshape, Hscale.
      cbn [from_option]. unfold Datatypes.id. by rewrite Hdraw. }
    split.
    + cbn [length]. by rewrite Hnext.
    + intros [|j] col Hj.
      * injection Hj as <-. exists dist, shape, scale.
        repeat split; try done. cbn [rng_before_column]. by rewrite Hdraw.
      * destruct (Hcols j col Hj) as (d & sh & sc & Hd & Hsh & Hsc & ->).
        exists d, sh, sc. repeat split; try done. by rewrite Hnext.
Qed.

(** X15: the matrix of latent event times holds, in column [j], the
    sample of cause [j]: its entry in row [i] is the [i]-th of the [n]
    Weibull variates drawn with the shape and scale of cause [j] from the
    generator state reached once the columns of the causes before it have
    been drawn. The censoring times are the [n] uniform variates drawn from
    the state reached after all the columns. *)
Theorem latent_matrix_columns (seed : Z) (n : nat) (dists : list dict) (high : R)
    (sim : simulation rng_state) :
  simulate seed n dists high = Some sim ->
  (forall i row j x,
     event_times sim !! i = Some row -> row !! j = Some x ->
     exists dist shape scale,
       dists !! j = Some dist /\
       dist !! "shape" = Some shape /\ dist !! "scale" = Some scale /\
       (weibull_min_rvs shape scale n
          (rng_before_column n dists (default_rng seed) j)).1 !! i = Some x) /\
  censoring_times sim
  = (rng_uniform 0 high n
       (rng_before_column n dists (default_rng seed) (length dists))).1.
Proof.
  intros Hsim.
  apply simulate_Some in Hsim as (cols & rng1 & Hs & Hc & _ & Hu & _).
  apply sample_columns_lookup in Hs as [Hfinal Hcols]. split.
  - intros i row j x Hrow Hx.
    destruct (concatenate_columns_lookup cols _ i row j x Hc Hrow Hx)
      as (col & Hcol & Hi).
    destruct (Hcols j col Hcol) as (d & sh & sc & Hd & Hsh & Hsc & ->).
    exists d, sh, sc. repeat split; done.
  - by rewrite Hu, Hfinal.
Qed.

End WholeRun.

(** ** Examples of generated datasets, with the counter generator *)

Lemma simulate_counter_example :
  exists sim, simulate (gen := counter_generator) 0 2 distributions (1.2 * t_max)
              = Some sim.
Proof.
  destruct (simulate_is_Some (gen := counter_generator) 0 2 distributions
              (1.2 * t_max)) as (sim & Hsim & _);
    [discriminate|apply CauseSpec_keys, distributions_CauseSpec|eauto].
Qed.

Lemma simulate_shapes_witness :
  exists sim, simulate (gen := counter_generator) 0 2 distributions (1.2 * t_max)
              = Some sim /\
    length (event_times sim) = 2%nat /\
    Forall (fun row => length row = 3%nat) (event_times sim) /\
    length (duration (y_censored sim)) = 2%nat.
Proof.
  destruct simulate_counter_example as [sim Hsim]. exists sim.
  destruct (simulate_shapes 0 2 distributions (1.2 * t_max) sim Hsim)
    as (Hn & Hw & _ & _ & _ & _ & Hd).
  repeat split; assumption.
Defined.

Lemma simulate_event_labels_witness :
  exists sim, simulate (gen := counter_generator) 0 2 distributions (1.2 * t_max)
              = Some sim /\
    Forall (fun e => 1 <= e <= 3)%Z (event (y_uncensored sim)) /\
    Forall (fun e => 0 <= e <= 3)%Z (event (y_censored sim)).
Proof.
  destruct simulate_counter_example as [sim Hsim]. exists sim.
  split; [exact Hsim|].
  exact (simulate_event_labels 0 2 distributions (1.2 * t_max) sim Hsim).
Defined.

Lemma latent_matrix_columns_witness :
  exists sim,
    simulate (gen := counter_generator) 0 2 distributions (1.2 * t_max) = Some sim /\
    censoring_times sim
    = (rng_uniform (gen := counter_generator) 0 (1.2 * t_max) 2
         (rng_before_column 2 distributions (default_rng 0) 3)).1.
Proof.
  destruct simulate_counter_example as [sim Hsim].
  exists sim. split; [exact Hsim|].
  exact (proj2 (latent_matrix_columns 0 2 distributions (1.2 * t_max) sim Hsim)).
Defined.

(** ** Examples for the conditions of success *)

(** Reads a concrete dictionary entry met in a hypothesis. *)
Ltac read_entry H x :=
  match type of H with
  | ?l = Some _ =>
      let Hl := fresh in
      assert (Hl : l = Some x) by reflexivity;
      rewrite Hl in H; clear Hl; apply (inj Some) in H; subst
  end.

Lemma distributions_accepted_by_sampler : Forall accepted_by_sampler distributions.
Proof.
  unfold distributions, base_scale.
  rewrite !Forall_cons.
  split; [split; intros v Hv
         |split; [split; intros v Hv
                 |split; [split; intros v Hv|constructor]]].
  - read_entry Hv 0.5. lra.
  - read_entry Hv (10 * 1000). lra.
  - read_entry Hv 1. lra.
  - read_entry Hv (3 * 1000). lra.
  - read_entry Hv 5. lra.
  - read_entry Hv (2 * 1000). lra.
Qed.

Lemma simulate_succeeds_iff_witness :
  is_Some (simulate (gen := counter_generator) 0 2 distributions (1.2 * t_max)) <->
  distributions <> [] /\
  Forall (fun dist : dict => is_Some (dist !! "shape") /\ is_Some (dist !! "scale"))
    distributions.
Proof.
  apply simulate_succeeds_iff.
  - lia.
  - unfold t_max, base_scale. lra.
  - exact distributions_accepted_by_sampler.
Defined.

Lemma theoretical_curves_succeeds_iff_witness :
  is_Some (theoretical_curves [0; 1; 2] distributions) <->
  (2 <= length distributions)%nat /\ (2 <= length [0; 1; 2])%nat /\
  Forall (fun dist : dict => dist !! "t" = None) distributions.
Proof.
  apply theoretical_curves_succeeds_iff.
  eapply Forall_impl; [exact distributions_positive|].
  intros dist [_ Hscale]. lra.
Defined.
